(** * clientdb: the entity store ([src/clientdb/entity/store.ts])

    A shallow embedding of [createEntityStore] and of the store methods it
    returns, together with the properties of the store's lookup, removal,
    query and teardown behaviour.

    The store is a closure over a mutable array ([items]), a mutable object
    used as a map ([itemsMap]), a [Map] of field indexes, a memoised query
    constructor and an event emitter.  The closure state is the record
    [StoreState]; every store method is an [Action] over it, i.e. a function
    from the state to an outcome (a returned value or a thrown error) and
    the next state. *)

From stdpp Require Import gmap strings list fin_maps pretty sorting.
From Stdlib Require Import ZArith.

(** ** JavaScript values held by entity fields *)

(** Primitive values.  [VNum n] stands for the number [n] when [n] is a safe
    integer (of magnitude below 2^53): those a JavaScript number holds
    exactly, and whose string coercion is their decimal numeral.  A [VNum]
    outside that range stands for no JavaScript number. *)
Inductive Value :=
  | VUndefined
  | VNull
  | VBool (b : bool)
  | VNum (n : Z)
  | VStr (s : string).

#[global] Instance Value_eq_dec : EqDecision Value.
Proof. solve_decision. Defined.

(** The coercion performed by a template literal [`${v}`]. *)
Definition toString (v : Value) : string :=
  match v with
  | VUndefined => "undefined"
  | VNull => "null"
  | VBool true => "true"
  | VBool false => "false"
  | VNum n => pretty n
  | VStr s => s
  end.

(** ** Entities *)

(** An entity is an object: [entity_ref] is its reference identity (two
    distinct objects never share it), [entity_fields] its data and view
    fields in property order.  Equality of entities stands for [===], by
    which [indexOf] compares the objects the store is handed.  The store
    keeps the objects it is given and none of its methods writes to an
    entity's fields. *)
Record Entity := mkEntity {
  entity_ref : nat;
  entity_fields : list (string * Value);
}.

#[global] Instance Entity_eq_dec : EqDecision Entity.
Proof. solve_decision. Defined.

(** Property read [entity[key]]: a missing property reads as [undefined]. *)
Fixpoint getProperty (fields : list (string * Value)) (key : string) : Value :=
  match fields with
  | [] => VUndefined
  | (k, v) :: rest => if bool_decide (k = key) then v else getProperty rest key
  end.

Definition entity_get (entity : Entity) (key : string) : Value :=
  getProperty (entity_fields entity) key.

(** ** What a read of the identity map hands out *)

(** The names every plain object inherits from [Object.prototype]. *)
Definition objectPrototypeKeys : list string :=
  ["constructor"; "__defineGetter__"; "__defineSetter__"; "hasOwnProperty";
   "__lookupGetter__"; "__lookupSetter__"; "isPrototypeOf";
   "propertyIsEnumerable"; "toString"; "valueOf"; "__proto__";
   "toLocaleString"].

Definition inherited (key : string) : bool :=
  bool_decide (key ∈ objectPrototypeKeys).

(** The value of [itemsMap[id]] when it is not [undefined]: an entity held
    in an own property, or the member of [Object.prototype] of that name,
    which is a function (the prototype object itself for ["__proto__"]) and
    has no [cleanup].  The same values are what a lookup by identity can
    return and what the access validator can be handed. *)
Inductive MapValue :=
  | OwnEntity (entity : Entity)
  | Inherited (key : string).

#[global] Instance MapValue_eq_dec : EqDecision MapValue.
Proof. solve_decision. Defined.

(** ** The entity definition consumed by the store *)

(** The opaque context handle that is passed to the access validator only. *)
Record ClientDb := mkClientDb { db_handle : nat }.

Definition EntityChangeSource := string.

Record EntityConfig := mkEntityConfig {
  name : string;
  keyField : string;
  (** the [sortBy] iteratee, yielding a numeric sort key *)
  defaultSort : option (Entity → Z);
  (** the validator, a function of whatever value it is handed *)
  accessValidator : option (MapValue → ClientDb → bool);
}.

Record EntityDefinition := mkEntityDefinition { config : EntityConfig }.

(** ** Events, errors and query handles *)

(** [EntityStoreEvents]: the four event kinds with their payloads. *)
Inductive StoreEvent :=
  | itemAdded (entity : Entity) (source : EntityChangeSource)
  | itemUpdated (entity : Entity) (dataBefore : list (string * Value))
      (source : EntityChangeSource)
  | itemWillUpdate (entity : Entity) (input : list (string * Value))
      (source : EntityChangeSource)
  | itemRemoved (entity : Entity) (source : EntityChangeSource).

#[global] Instance StoreEvent_eq_dec : EqDecision StoreEvent.
Proof. solve_decision. Defined.

(** [MessageOrError]: a message string, or an error object made by the
    caller (its reference and its message). *)
Inductive MessageOrError :=
  | Message (text : string)
  | ErrorObject (error_ref : nat) (text : string).

#[global] Instance MessageOrError_eq_dec : EqDecision MessageOrError.
Proof. solve_decision. Defined.

(** What a store method can throw: the failed assertion of an [assert*]
    lookup, carrying the message or error it was given, or the [TypeError]
    of reading a property of [undefined], carrying the property's name. *)
Inductive JsError :=
  | NotFound (carried : MessageOrError)
  | TypeError (property : string).

#[global] Instance JsError_eq_dec : EqDecision JsError.
Proof. solve_decision. Defined.

(** [FindInput]: a predicate function (compared by reference) or an object
    of field values every match must hold. *)
Inductive FindInput :=
  | FilterFunction (fn_ref : nat)
  | FilterObject (fields : list (string * Value)).

(** [EntityQuerySortInput]: a comparator function (compared by reference);
    a negative result puts the first argument first. *)
Inductive SortInput :=
  | SortFunction (fn_ref : nat).

(** Function objects live in the heap and are named by their reference: a
    [FunctionHeap] gives, for each reference, the predicate or the
    comparator the function object computes. *)
Record FunctionHeap := mkFunctionHeap {
  predicateAt : nat → Entity → bool;
  comparatorAt : nat → Entity → Entity → Z;
}.

(** A query view object: [query_ref] is its reference identity. *)
Record EntityQuery := mkEntityQuery {
  query_ref : nat;
  query_filter : option FindInput;
  query_sort : option SortInput;
}.

(** A field index object held in [queryIndexes]: [index_ref] is its
    reference identity. *)
Record QueryIndex := mkQueryIndex {
  index_ref : nat;
  index_key : string;
  index_destroyed : bool;
}.

#[global] Instance QueryIndex_eq_dec : EqDecision QueryIndex.
Proof. solve_decision. Defined.

(** ** The closure state of one store *)

Record StoreState := mkStoreState {
  (** [items]: the observable array, in insertion order *)
  items : list Entity;
  (** [itemsMap]: the own properties of the observable object used as an
      id-to-entity map; what it inherits is added by [itemsMap_get] *)
  itemsMap : gmap string Entity;
  (** [queryIndexes]: the [Map] from field to its index *)
  queryIndexes : gmap string QueryIndex;
  (** the memo table of [createOrReuseQuery], newest entry first *)
  queryCache : list (option FindInput * option SortInput * EntityQuery);
  (** events handed to [events.emit], oldest first *)
  emitted : list StoreEvent;
  (** whether [events.destroy] ran *)
  eventsDestroyed : bool;
  (** entities whose [cleanup.clean] ran, oldest first *)
  disposed : list Entity;
  (** messages handed to [console.warn], oldest first *)
  warnings : list string;
  (** how many times the store's own [cleanups.clean] ran *)
  cleanupsCleaned : nat;
  (** how many index objects [createQueryFieldIndex] has made *)
  indexesMade : nat;
}.

(** The state right after [createEntityStore] returns. *)
Definition emptyStore : StoreState :=
  {| items := []; itemsMap := ∅; queryIndexes := ∅; queryCache := [];
     emitted := []; eventsDestroyed := false; disposed := []; warnings := [];
     cleanupsCleaned := 0; indexesMade := 0 |}.

(** ** Actions: state passing with thrown errors *)

Inductive Outcome (A : Type) :=
  | Returned (value : A)
  | Thrown (error : JsError).
Arguments Returned {A} value.
Arguments Thrown {A} error.

(** A thrown error keeps the mutations made before the throw. *)
Definition Action (A : Type) : Type := StoreState → Outcome A * StoreState.

#[global] Instance Action_ret : MRet Action := λ A a st, (Returned a, st).

#[global] Instance Action_bind : MBind Action := λ A B k m st,
  match m st with
  | (Returned a, st') => k a st'
  | (Thrown e, st') => (Thrown e, st')
  end.

Definition throw {A} (e : JsError) : Action A := λ st, (Thrown e, st).
Definition getState : Action StoreState := λ st, (Returned st, st).
Definition modifyState (f : StoreState → StoreState) : Action unit :=
  λ st, (Returned tt, f st).

(** [runInAction(body)]: the body runs as one transaction; observers are
    notified once it ends.  The state it leaves is the body's. *)
Definition runInAction {A} (body : Action A) : Action A := body.

(** Modelled from the spec: the Memoizer ([cachedComputed], from the
    package index, is not part of this file).  It wraps a pure derivation
    and returns what the derivation returns, recomputing when an input or a
    piece of state it read has changed; its results are those of the
    function it wraps. *)
Definition cachedComputed {A B} (f : A → B) : A → B := f.

(** *** State updates used by the methods *)

Definition set_items (f : list Entity → list Entity) (st : StoreState) :=
  {| items := f (items st); itemsMap := itemsMap st;
     queryIndexes := queryIndexes st; queryCache := queryCache st;
     emitted := emitted st; eventsDestroyed := eventsDestroyed st;
     disposed := disposed st; warnings := warnings st;
     cleanupsCleaned := cleanupsCleaned st; indexesMade := indexesMade st |}.

Definition set_itemsMap (f : gmap string Entity → gmap string Entity)
    (st : StoreState) :=
  {| items := items st; itemsMap := f (itemsMap st);
     queryIndexes := queryIndexes st; queryCache := queryCache st;
     emitted := emitted st; eventsDestroyed := eventsDestroyed st;
     disposed := disposed st; warnings := warnings st;
     cleanupsCleaned := cleanupsCleaned st; indexesMade := indexesMade st |}.

Definition set_queryIndexes
    (f : gmap string QueryIndex → gmap string QueryIndex) (st : StoreState) :=
  {| items := items st; itemsMap := itemsMap st;
     queryIndexes := f (queryIndexes st); queryCache := queryCache st;
     emitted := emitted st; eventsDestroyed := eventsDestroyed st;
     disposed := disposed st; warnings := warnings st;
     cleanupsCleaned := cleanupsCleaned st; indexesMade := indexesMade st |}.

Definition set_queryCache
    (f : list (option FindInput * option SortInput * EntityQuery) →
         list (option FindInput * option SortInput * EntityQuery))
    (st : StoreState) :=
  {| items := items st; itemsMap := itemsMap st;
     queryIndexes := queryIndexes st; queryCache := f (queryCache st);
     emitted := emitted st; eventsDestroyed := eventsDestroyed st;
     disposed := disposed st; warnings := warnings st;
     cleanupsCleaned := cleanupsCleaned st; indexesMade := indexesMade st |}.

Definition set_emitted (f : list StoreEvent → list StoreEvent)
    (st : StoreState) :=
  {| items := items st; itemsMap := itemsMap st;
     queryIndexes := queryIndexes st; queryCache := queryCache st;
     emitted := f (emitted st); eventsDestroyed := eventsDestroyed st;
     disposed := disposed st; warnings := warnings st;
     cleanupsCleaned := cleanupsCleaned st; indexesMade := indexesMade st |}.

Definition set_eventsDestroyed (b : bool) (st : StoreState) :=
  {| items := items st; itemsMap := itemsMap st;
     queryIndexes := queryIndexes st; queryCache := queryCache st;
     emitted := emitted st; eventsDestroyed := b;
     disposed := disposed st; warnings := warnings st;
     cleanupsCleaned := cleanupsCleaned st; indexesMade := indexesMade st |}.

Definition set_disposed (f : list Entity → list Entity) (st : StoreState) :=
  {| items := items st; itemsMap := itemsMap st;
     queryIndexes := queryIndexes st; queryCache := queryCache st;
     emitted := emitted st; eventsDestroyed := eventsDestroyed st;
     disposed := f (disposed st); warnings := warnings st;
     cleanupsCleaned := cleanupsCleaned st; indexesMade := indexesMade st |}.

Definition set_warnings (f : list string → list string) (st : StoreState) :=
  {| items := items st; itemsMap := itemsMap st;
     queryIndexes := queryIndexes st; queryCache := queryCache st;
     emitted := emitted st; eventsDestroyed := eventsDestroyed st;
     disposed := disposed st; warnings := f (warnings st);
     cleanupsCleaned := cleanupsCleaned st; indexesMade := indexesMade st |}.

Definition set_cleanupsCleaned (f : nat → nat) (st : StoreState) :=
  {| items := items st; itemsMap := itemsMap st;
     queryIndexes := queryIndexes st; queryCache := queryCache st;
     emitted := emitted st; eventsDestroyed := eventsDestroyed st;
     disposed := disposed st; warnings := warnings st;
     cleanupsCleaned := f (cleanupsCleaned st); indexesMade := indexesMade st |}.

Definition set_indexesMade (f : nat → nat) (st : StoreState) :=
  {| items := items st; itemsMap := itemsMap st;
     queryIndexes := queryIndexes st; queryCache := queryCache st;
     emitted := emitted st; eventsDestroyed := eventsDestroyed st;
     disposed := disposed st; warnings := warnings st;
     cleanupsCleaned := cleanupsCleaned st; indexesMade := f (indexesMade st) |}.

(** *** Collaborators of the store *)

(** [itemsMap[id]]: the own property of that name when there is one, the
    inherited member when the name is one of [Object.prototype]'s, and
    [undefined] otherwise. *)
Definition itemsMap_get (own : gmap string Entity) (id : string)
    : option MapValue :=
  match own !! id with
  | Some entity => Some (OwnEntity entity)
  | None => if inherited id then Some (Inherited id) else None
  end.

(** [items.remove(entity)] of an observable array: the first element equal
    to [entity] is spliced out and [true] is returned; [false] when there is
    none. *)
Fixpoint array_remove (entity : Entity) (l : list Entity) : bool * list Entity :=
  match l with
  | [] => (false, [])
  | x :: rest =>
      if bool_decide (x = entity) then (true, rest)
      else let '(found, rest') := array_remove entity rest in (found, x :: rest')
  end.

(** Modelled from the spec: the EventBus ([createMobxAwareEventsEmmiter] is
    not part of this file).  [emit] delivers the event to the subscribers
    before it returns; the model records the event. *)
Definition events_emit (event : StoreEvent) : Action unit :=
  modifyState (set_emitted (λ log, log ++ [event])).

(** Modelled from the spec: [events.destroy] removes all subscriptions. *)
Definition events_destroy : Action unit :=
  modifyState (set_eventsDestroyed true).

(** [entity.cleanup.clean()]: the entity's disposer runs. *)
Definition entity_cleanup_clean (entity : Entity) : Action unit :=
  modifyState (set_disposed (λ log, log ++ [entity])).

(** Modelled from the spec: the store's cleanup registry
    ([createCleanupObject] is not part of this file) runs the teardown
    callbacks registered on it; the store registers none. *)
Definition cleanups_clean : Action unit :=
  modifyState (set_cleanupsCleaned S).

(** [console.warn(message)]. *)
Definition console_warn (message : string) : Action unit :=
  modifyState (set_warnings (λ log, log ++ [message])).

(** Modelled from the spec: [assert(value, messageOrError)] (from
    [utils/assert], not part of this file) returns when the value is
    present and otherwise raises the NotFound condition carrying the
    message or error it was given. *)
Definition assert {A} (value : option A) (messageOrError : MessageOrError)
    : Action A :=
  match value with
  | Some a => mret a
  | None => throw (NotFound messageOrError)
  end.

(** *** Sorting *)

(** Stable insertion sort by a comparator: [x] goes before the first element
    it does not exceed, so equal elements keep their relative order. *)
Fixpoint insertBy (cmp : Entity → Entity → Z) (x : Entity) (l : list Entity)
    : list Entity :=
  match l with
  | [] => [x]
  | y :: rest => if (cmp x y <=? 0)%Z then x :: y :: rest
                 else y :: insertBy cmp x rest
  end.

Fixpoint sortWith (cmp : Entity → Entity → Z) (l : list Entity) : list Entity :=
  match l with
  | [] => []
  | x :: rest => insertBy cmp x (sortWith cmp rest)
  end.

(** lodash [sortBy(items, iteratee)]: stable, ascending in the iteratee. *)
Definition sortBy (l : list Entity) (iteratee : Entity → Z) : list Entity :=
  sortWith (λ a b, (iteratee a - iteratee b)%Z) l.

(** *** Structural equality of query arguments *)

Definition hasProperty (fields : list (string * Value)) (key : string) : bool :=
  bool_decide (key ∈ fields.*1).

Definition object_within (o1 o2 : list (string * Value)) : bool :=
  forallb (λ kv, hasProperty o2 kv.1 &&
                 bool_decide (getProperty o2 kv.1 = getProperty o1 kv.1)) o1.

(** Two plain objects are structurally equal when they have the same own
    keys with equal values, whatever the property order. *)
Definition objects_equal (o1 o2 : list (string * Value)) : bool :=
  object_within o1 o2 && object_within o2 o1.

Definition findInput_equal (a b : FindInput) : bool :=
  match a, b with
  | FilterFunction r1, FilterFunction r2 => bool_decide (r1 = r2)
  | FilterObject o1, FilterObject o2 => objects_equal o1 o2
  | _, _ => false
  end.

Definition sortInput_equal (a b : SortInput) : bool :=
  match a, b with
  | SortFunction r1, SortFunction r2 => bool_decide (r1 = r2)
  end.

Definition option_equal {A} (eqb : A → A → bool) (a b : option A) : bool :=
  match a, b with
  | None, None => true
  | Some x, Some y => eqb x y
  | _, _ => false
  end.

Definition args_equal (a b : option FindInput * option SortInput) : bool :=
  option_equal findInput_equal a.1 b.1 && option_equal sortInput_equal a.2 b.2.

(** Modelled from the spec: the memo table of [deepMemoize] (from
    [utils/deepMap], not part of this file) is keyed by the structural
    identity of the arguments; a call whose arguments are structurally equal
    to a cached key gets the cached result. *)
Fixpoint memo_lookup (args : option FindInput * option SortInput)
    (cache : list (option FindInput * option SortInput * EntityQuery))
    : option EntityQuery :=
  match cache with
  | [] => None
  | (f, s, q) :: rest =>
      if args_equal (f, s) args then Some q else memo_lookup args rest
  end.

(** *** Messages *)

(** The text of the warning for an ambiguous unique-index lookup. *)
Definition ambiguityWarning (key : string) (value : Value) : string :=
  "Store has multiple items for unique index value "
  +:+ key +:+ ":" +:+ toString value +:+ ".".

(** The default message of [assertFindById]. *)
Definition missingIdMessage (id : string) : MessageOrError :=
  Message ("No item found for id " +:+ id).

(** The message of [assertFindByUniqueIndex]. *)
Definition missingIndexedMessage (key : string) (value : Value)
    : MessageOrError :=
  Message ("Assertion error for assertFindByUniqueIndex for key "
           +:+ key +:+ " and value " +:+ toString value).

(** ** [createEntityStore(definition, db)] *)

Section createEntityStore.

Variable definition : EntityDefinition.
Variable db : ClientDb.

(** The field indexes ([createQueryFieldIndex], from [queryIndex], is not
    part of this file): [queryIndex_find key st value] is what
    [getKeyIndex(key).find(value)] returns when the store is in state
    [st]. *)
Variable queryIndex_find : string → StoreState → Value → list Entity.

(** The function objects that filters and sorts refer to. *)
Variable heap : FunctionHeap.

(** [getIsEntityAccessable]: present exactly when a validator is
    configured. *)
Definition getIsEntityAccessable : option (MapValue → bool) :=
  match accessValidator (config definition) with
  | Some validator => Some (cachedComputed (λ entity, validator entity db))
  | None => None
  end.

(** [getRootSource]: the items, without those the validator rejects. *)
Definition getRootSource (st : StoreState) : list Entity :=
  match getIsEntityAccessable with
  | Some accessible =>
      filter (λ entity, accessible (OwnEntity entity) = true) (items st)
  | None => items st
  end.

Definition sortItems (l : list Entity) : list Entity :=
  match defaultSort (config definition) with
  | None => l
  | Some iteratee => sortBy l iteratee
  end.

Definition getEntityId (entity : Entity) : string :=
  toString (entity_get entity (keyField (config definition))).

(** Modelled from the spec: [resolveSortInput(sort) ?? undefined] (from
    [query], not part of this file) resolves the sort once, when the view is
    made; a comparator function resolves to itself. *)
Definition resolveSortInput (sort : option SortInput) : option SortInput :=
  sort.

(** Modelled from the spec: [createEntityQuery(getRootSource, {filter,
    sort}, store)] (from [query], not part of this file) makes a new query
    view object over the root source; no object made before has its
    reference. *)
Definition createEntityQuery (fresh : nat) (filter : option FindInput)
    (sort : option SortInput) : EntityQuery :=
  {| query_ref := fresh; query_filter := filter; query_sort := sort |}.

Definition createOrReuseQuery (filter : option FindInput)
    (sort : option SortInput) : Action EntityQuery :=
  st ← getState;
  match memo_lookup (filter, sort) (queryCache st) with
  | Some cached => mret cached
  | None =>
      let resolvedSort := resolveSortInput sort in
      let created :=
        createEntityQuery (length (queryCache st)) filter resolvedSort in
      modifyState (set_queryCache (cons (filter, sort, created)));;
      mret created
  end.

(** The [cachedComputed] lookup behind [store.findById].  What
    [itemsMap[id]] yields is returned when it is not [undefined] and passes
    the validator, be it an entity or a member the map inherits. *)
Definition findById (st : StoreState) (id : string) : option MapValue :=
  match itemsMap_get (itemsMap st) id with
  | None => None
  | Some entity =>
      match getIsEntityAccessable with
      | Some accessible =>
          if negb (accessible entity) then None else Some entity
      | None => Some entity
      end
  end.

(** *** The query view *)

(** Modelled from the spec: the filter predicate of a view.  A function
    is applied to the entity; an object holds of the entities that have
    each of its field values. *)
Definition findInput_matches (filter : FindInput) (entity : Entity) : bool :=
  match filter with
  | FilterFunction r => predicateAt heap r entity
  | FilterObject fields =>
      forallb (λ kv, bool_decide (entity_get entity kv.1 = kv.2)) fields
  end.

(** Modelled from the spec: [all] of a query view ([createEntityQuery],
    from [query], is not part of this file) takes the store's
    access-filtered root collection, applies the filter predicate, then the
    sort, defaulting to the definition's default sort when no sort is
    given. *)
Definition query_all (q : EntityQuery) (st : StoreState) : list Entity :=
  let root := getRootSource st in
  let passed :=
    match query_filter q with
    | Some f => filter (λ entity, findInput_matches f entity = true) root
    | None => root
    end in
  match query_sort q with
  | Some (SortFunction r) => sortWith (comparatorAt heap r) passed
  | None => sortItems passed
  end.

(** Modelled from the spec: [first] of a query view. *)
Definition query_first (q : EntityQuery) (st : StoreState) : option Entity :=
  head (query_all q st).

(** *** The store methods *)

(** Modelled from the spec: [createQueryFieldIndex(key, store)] (from
    [queryIndex], not part of this file) makes the index of one field, a new
    object that lives until the store is destroyed. *)
Definition createQueryFieldIndex (fresh : nat) (key : string) : QueryIndex :=
  {| index_ref := fresh; index_key := key; index_destroyed := false |}.

Definition store_getKeyIndex (key : string) : Action QueryIndex :=
  st ← getState;
  match queryIndexes st !! key with
  | Some existingIndex => mret existingIndex
  | None =>
      let newIndex := createQueryFieldIndex (indexesMade st) key in
      modifyState (set_indexesMade S);;
      modifyState (set_queryIndexes <[key := newIndex]>);;
      mret newIndex
  end.

Definition store_add (entity : Entity) (source : option EntityChangeSource)
    : Action Entity :=
  let source := default "user" source in
  let id := getEntityId entity in
  runInAction (
    modifyState (set_items (λ l, l ++ [entity]));;
    modifyState (set_itemsMap <[id := entity]>);;
    events_emit (itemAdded entity source));;
  mret entity.

Definition store_findById (id : string) : Action (option MapValue) :=
  st ← getState; mret (findById st id).

Definition store_assertFindById (id : string) (error : option MessageOrError)
    : Action MapValue :=
  item ← store_findById id;
  assert item (default (missingIdMessage id) error).

Definition store_query (filter : option FindInput) (sort : option SortInput)
    : Action EntityQuery :=
  createOrReuseQuery filter sort.

Definition store_sort (sort : SortInput) : Action EntityQuery :=
  createOrReuseQuery None (Some sort).

Definition store_find (filter : FindInput) : Action (list Entity) :=
  q ← store_query (Some filter) None;
  st ← getState; mret (query_all q st).

Definition store_findFirst (filter : FindInput) : Action (option Entity) :=
  q ← store_query (Some filter) None;
  st ← getState; mret (query_first q st).

Definition store_findByUniqueIndex (key : string) (value : Value)
    : Action (option Entity) :=
  _ ← store_getKeyIndex key;
  st ← getState;
  let results := queryIndex_find key st value in
  match results with
  | [] => mret None
  | result :: _ =>
      (if bool_decide (1 < length results)
       then console_warn (ambiguityWarning key value)
       else mret tt);;
      match getIsEntityAccessable with
      | Some accessible =>
          if negb (accessible (OwnEntity result)) then mret None
          else mret (Some result)
      | None => mret (Some result)
      end
  end.

Definition store_assertFindByUniqueIndex (key : string) (value : Value)
    : Action Entity :=
  entity ← store_findByUniqueIndex key value;
  assert entity (missingIndexedMessage key value).

(** [removeById]: [itemsMap[id] ?? null] decides.  For an entity the
    transaction runs as written.  For an inherited member the first
    statement of the transaction, [entity.cleanup.clean()], reads [clean] of
    the missing [cleanup] and throws before anything is changed. *)
Definition store_removeById (id : string) (source : option EntityChangeSource)
    : Action bool :=
  let source := default "user" source in
  st ← getState;
  match itemsMap_get (itemsMap st) id with
  | None => mret false
  | Some (Inherited _) =>
      runInAction (throw (TypeError "clean"))
  | Some (OwnEntity entity) =>
      runInAction (
        entity_cleanup_clean entity;;
        st ← getState;
        let '(didRemove, remaining) := array_remove entity (items st) in
        modifyState (set_items (λ _, remaining));;
        modifyState (set_itemsMap (delete id));;
        events_emit (itemRemoved entity source);;
        mret didRemove)
  end.

(** Modelled from the spec: [queryIndex.destroy()] disposes the index (the
    index object is made by [createQueryFieldIndex], not part of this
    file). *)
Definition queryIndex_destroy (index : QueryIndex) : QueryIndex :=
  {| index_ref := index_ref index; index_key := index_key index;
     index_destroyed := true |}.

Definition store_destroy : Action unit :=
  runInAction (
    cleanups_clean;;
    modifyState (set_queryIndexes (fmap queryIndex_destroy));;
    events_destroy).

(** *** Sequences of calls on one store *)

Inductive StoreCall :=
  | CallAdd (entity : Entity) (source : option EntityChangeSource)
  | CallRemoveById (id : string) (source : option EntityChangeSource)
  | CallFindById (id : string)
  | CallAssertFindById (id : string) (error : option MessageOrError)
  | CallFind (filter : FindInput)
  | CallFindFirst (filter : FindInput)
  | CallFindByUniqueIndex (key : string) (value : Value)
  | CallAssertFindByUniqueIndex (key : string) (value : Value)
  | CallQuery (filter : option FindInput) (sort : option SortInput)
  | CallSort (sort : SortInput)
  | CallGetKeyIndex (key : string).

(** The state a call leaves, whatever it returned or threw. *)
Definition perform (st : StoreState) (call : StoreCall) : StoreState :=
  match call with
  | CallAdd entity source => (store_add entity source st).2
  | CallRemoveById id source => (store_removeById id source st).2
  | CallFindById id => (store_findById id st).2
  | CallAssertFindById id error => (store_assertFindById id error st).2
  | CallFind filter => (store_find filter st).2
  | CallFindFirst filter => (store_findFirst filter st).2
  | CallFindByUniqueIndex key value => (store_findByUniqueIndex key value st).2
  | CallAssertFindByUniqueIndex key value =>
      (store_assertFindByUniqueIndex key value st).2
  | CallQuery filter sort => (store_query filter sort st).2
  | CallSort sort => (store_sort sort st).2
  | CallGetKeyIndex key => (store_getKeyIndex key st).2
  end.

Definition performAll (st : StoreState) (calls : list StoreCall) : StoreState :=
  foldl perform st calls.

End createEntityStore.

(** ** Predicates used by the statements *)

(** Whether the store lets [entity] through: the validator's verdict, or
    [true] when none is configured. *)
Definition isAccessible (definition : EntityDefinition) (db : ClientDb)
    (entity : Entity) : bool :=
  match getIsEntityAccessable definition db with
  | Some accessible => accessible (OwnEntity entity)
  | None => true
  end.

(** The verdict of the configured validator on an entity, read off the
    definition itself; [true] when none is configured. *)
Definition passesValidator (definition : EntityDefinition) (db : ClientDb)
    (entity : Entity) : bool :=
  match accessValidator (config definition) with
  | Some validator => validator (OwnEntity entity) db
  | None => true
  end.

(** What [findById] returns for an identity that has no own slot in the
    map: nothing, unless the identity names a member of [Object.prototype],
    which is then returned if the validator, when one is configured, lets it
    through. *)
Definition findById_unowned (definition : EntityDefinition) (db : ClientDb)
    (id : string) : option MapValue :=
  if inherited id then
    match accessValidator (config definition) with
    | Some validator =>
        if validator (Inherited id) db then Some (Inherited id) else None
    | None => Some (Inherited id)
    end
  else None.

(** What [removeById] returns or throws for an identity that has no own
    slot in the map: [false], unless the identity names a member of
    [Object.prototype], whose missing [cleanup] makes the call throw. *)
Definition removeById_unowned (id : string) : Outcome bool :=
  if inherited id then Thrown (TypeError "clean") else Returned false.

(** What [items.remove(entity)] leaves in the array. *)
Definition removeFirst (entity : Entity) (l : list Entity) : list Entity :=
  (array_remove entity l).2.

(** A later call leaves the map slot of [entity] alone: it is neither a
    [removeById] of its identity nor an [add] of another entity with its
    identity. *)
Definition keepsSlot (definition : EntityDefinition) (entity : Entity)
    (call : StoreCall) : bool :=
  match call with
  | CallRemoveById id _ => negb (bool_decide (id = getEntityId definition entity))
  | CallAdd other _ =>
      negb (bool_decide (getEntityId definition other = getEntityId definition entity))
      || bool_decide (other = entity)
  | _ => true
  end.

(** A later call is not a [removeById] of the identity of [entity]. *)
Definition notRemoving (definition : EntityDefinition) (entity : Entity)
    (call : StoreCall) : bool :=
  match call with
  | CallRemoveById id _ => negb (bool_decide (id = getEntityId definition entity))
  | _ => true
  end.

(** The call is an [add] or a [removeById]. *)
Definition isMutation (call : StoreCall) : bool :=
  match call with
  | CallAdd _ _ | CallRemoveById _ _ => true
  | _ => false
  end.

(** The identities carried by the entries of the ordered sequence. *)
Definition sequenceIds (definition : EntityDefinition) (st : StoreState)
    : list string :=
  getEntityId definition <$> items st.

(** Sequence and map agree: same identities, none twice in the sequence. *)
Definition storeInvariant (definition : EntityDefinition) (st : StoreState)
    : Prop :=
  dom (itemsMap st) = list_to_set (sequenceIds definition st)
  ∧ NoDup (sequenceIds definition st).

(** Every [add] of the sequence supplies an identity that no live entity
    holds when the call is made. *)
Fixpoint addsFresh (definition : EntityDefinition) (db : ClientDb)
    (queryIndex_find : string → StoreState → Value → list Entity)
    (heap : FunctionHeap) (st : StoreState) (calls : list StoreCall) : bool :=
  match calls with
  | [] => true
  | call :: rest =>
      match call with
      | CallAdd entity _ =>
          bool_decide (itemsMap st !! getEntityId definition entity = None)
      | _ => true
      end
      && addsFresh definition db queryIndex_find heap
           (perform definition db queryIndex_find heap st call) rest
  end.

(** Every slot of the map holds an entry of the sequence, under that
    entry's identity. *)
Definition mapLinked (definition : EntityDefinition) (st : StoreState) : Prop :=
  ∀ id entity, itemsMap st !! id = Some entity →
    entity ∈ items st ∧ getEntityId definition entity = id.

(** Every entry of the sequence sits in the map under its identity. *)
Definition sequenceLinked (definition : EntityDefinition) (st : StoreState)
    : Prop :=
  ∀ entity, entity ∈ items st →
    itemsMap st !! getEntityId definition entity = Some entity.

(** [st'] has the sequence, the map, the event log and the disposer log of
    [st]. *)
Definition sameEntities (st st' : StoreState) : Prop :=
  items st' = items st ∧ itemsMap st' = itemsMap st
  ∧ emitted st' = emitted st ∧ disposed st' = disposed st.

(** An action that leaves them as they are, whatever it returns or throws. *)
Definition readOnly {A} (m : Action A) : Prop :=
  ∀ st, sameEntities st (m st).2.

(** An action that maintains a property of the state, whatever it returns
    or throws. *)
Definition keeps (P : StoreState → Prop) {A} (m : Action A) : Prop :=
  ∀ st, P st → P (m st).2.

(** Every entry of the memo table holds a view made from its own key. *)
Definition cacheSound (cache : list (option FindInput * option SortInput * EntityQuery))
    : Prop :=
  Forall (λ entry, query_filter entry.2 = entry.1.1
                   ∧ query_sort entry.2 = entry.1.2) cache.

(** The order a comparator induces. *)
Definition precedes (cmp : Entity → Entity → Z) (x y : Entity) : Prop :=
  (cmp x y <= 0)%Z.

(** A comparator that orders: any two entities compare one way or the
    other, and the order is transitive. *)
Definition orders (cmp : Entity → Entity → Z) : Prop :=
  (∀ x y, precedes cmp x y ∨ precedes cmp y x)
  ∧ (∀ x y z, precedes cmp x y → precedes cmp y z → precedes cmp x z).

(** ** Sample stores *)

Module Sample.

Definition db : ClientDb := {| db_handle := 0 |}.

(** A definition keyed by ["id"], with no sort and no validator. *)
Definition tasks : EntityDefinition :=
  {| config := {| name := "task"; keyField := "id"; defaultSort := None;
                  accessValidator := None |} |}.

(** The same, with a validator that hides what has the ["group"]
    ["secret"]; the members of [Object.prototype] have no group. *)
Definition guardedTasks : EntityDefinition :=
  {| config := {| name := "task"; keyField := "id"; defaultSort := None;
                  accessValidator :=
                    Some (λ value _,
                      match value with
                      | OwnEntity entity =>
                          negb (bool_decide
                                  (entity_get entity "group" = VStr "secret"))
                      | Inherited _ => true
                      end) |} |}.

Definition a : Entity :=
  {| entity_ref := 1; entity_fields := [("id", VStr "a"); ("group", VStr "x")] |}.
Definition b : Entity :=
  {| entity_ref := 2; entity_fields := [("id", VStr "b"); ("group", VStr "x")] |}.
Definition c : Entity :=
  {| entity_ref := 3; entity_fields := [("id", VStr "c"); ("group", VStr "y")] |}.
(** Another object with the identity of [a]. *)
Definition a' : Entity :=
  {| entity_ref := 4; entity_fields := [("id", VStr "a"); ("group", VStr "y")] |}.
(** Two entities with the same ["email"], the first one hidden. *)
Definition hidden : Entity :=
  {| entity_ref := 5;
     entity_fields := [("id", VNum 7); ("group", VStr "secret");
                       ("email", VStr "k@x.io")] |}.
Definition shown : Entity :=
  {| entity_ref := 6;
     entity_fields := [("id", VNum 8); ("group", VStr "x");
                       ("email", VStr "k@x.io")] |}.

(** Modelled from the spec: [find(value)] of a FieldIndex returns the
    accessible entities currently holding the value, in the store's
    insertion order. *)
Definition accessibleIndex (definition : EntityDefinition) (db : ClientDb)
    (key : string) (st : StoreState) (value : Value) : list Entity :=
  filter (λ entity, entity_get entity key = value)
         (getRootSource definition db st).

(** An index that buckets every entry of the sequence by its field value,
    before any access check. *)
Definition itemsIndex (key : string) (st : StoreState) (value : Value)
    : list Entity :=
  filter (λ entity, entity_get entity key = value) (items st).

(** Function objects: predicate 0 keeps group ["y"], predicate 1 keeps
    group ["x"]; every comparator orders by descending reference. *)
Definition heap : FunctionHeap :=
  {| predicateAt := λ r entity,
       bool_decide (entity_get entity "group" =
                    VStr (if bool_decide (r = 0) then "y" else "x"));
     comparatorAt := λ _ x y,
       (Z.of_nat (entity_ref y) - Z.of_nat (entity_ref x))%Z |}.

(** The state of a new store of [tasks], and of [guardedTasks], after some
    calls; both use [itemsIndex]. *)
Definition after (calls : list StoreCall) : StoreState :=
  performAll tasks db itemsIndex heap emptyStore calls.

Definition guardedAfter (calls : list StoreCall) : StoreState :=
  performAll guardedTasks db itemsIndex heap emptyStore calls.

(** Two spellings of one filter object. *)
Definition groupThenId : FindInput :=
  FilterObject [("group", VStr "x"); ("id", VStr "a")].
Definition idThenGroup : FindInput :=
  FilterObject [("id", VStr "a"); ("group", VStr "x")].

End Sample.

(** ** Readings of the event log and of calls *)

(** The entities of the [itemAdded] events of a log, oldest first. *)
Definition addedOf (log : list StoreEvent) : list Entity :=
  omap (λ event, match event with
                 | itemAdded entity _ => Some entity
                 | _ => None
                 end) log.

(** The entities of the [itemRemoved] events of a log, oldest first. *)
Definition removedOf (log : list StoreEvent) : list Entity :=
  omap (λ event, match event with
                 | itemRemoved entity _ => Some entity
                 | _ => None
                 end) log.

(** The call writes the map slot of [id]: an [add] of an entity with that
    identity or a [removeById] of it. *)
Definition targets (definition : EntityDefinition) (id : string)
    (call : StoreCall) : bool :=
  match call with
  | CallAdd entity _ => bool_decide (getEntityId definition entity = id)
  | CallRemoveById id' _ => bool_decide (id' = id)
  | _ => false
  end.

(** The integers a JavaScript number holds exactly
    ([Number.isSafeInteger]); their string coercion is their decimal
    numeral. *)
Definition isSafeInteger (n : Z) : Prop := (Z.abs n < 2 ^ 53)%Z.

(** The key field of the entity, as a value. *)
Definition keyValue (definition : EntityDefinition) (entity : Entity) : Value :=
  entity_get entity (keyField (config definition)).

(** ** More sample stores *)

Module Ranked.

(** The numeric ["rank"] of an entity, zero when it has none. *)
Definition rank (entity : Entity) : Z :=
  match entity_get entity "rank" with
  | VNum n => n
  | _ => 0%Z
  end.

(** A definition keyed by ["id"] whose default sort is by rank. *)
Definition tasks : EntityDefinition :=
  {| config := {| name := "task"; keyField := "id";
                  defaultSort := Some rank; accessValidator := None |} |}.

Definition low : Entity :=
  {| entity_ref := 11; entity_fields := [("id", VNum 7); ("rank", VNum 1)] |}.
Definition high : Entity :=
  {| entity_ref := 12; entity_fields := [("id", VStr "7"); ("rank", VNum 5)] |}.
Definition tie : Entity :=
  {| entity_ref := 13; entity_fields := [("id", VNum 9); ("rank", VNum 5)] |}.
(** An entity without the key field. *)
Definition keyless : Entity :=
  {| entity_ref := 14; entity_fields := [("rank", VNum 2)] |}.

End Ranked.

Module Mail.

(** Function objects: every predicate keeps the entities whose ["email"] is
    ["k@x.io"], whatever their group; every comparator orders by descending
    reference. *)
Definition heap : FunctionHeap :=
  {| predicateAt := λ _ entity,
       bool_decide (entity_get entity "email" = VStr "k@x.io");
     comparatorAt := λ _ x y,
       (Z.of_nat (entity_ref y) - Z.of_nat (entity_ref x))%Z |}.

(** A third holder of the address of [Sample.hidden] and [Sample.shown]. *)
Definition other : Entity :=
  {| entity_ref := 7;
     entity_fields := [("id", VNum 10); ("group", VStr "y");
                       ("email", VStr "k@x.io")] |}.

End Mail.

(** The spec's scenario, run on the model. *)
Example scenario_group_index :
  let st := performAll Sample.tasks Sample.db (Sample.accessibleIndex Sample.tasks Sample.db)
              Sample.heap emptyStore
              [CallAdd Sample.a None; CallAdd Sample.b None; CallAdd Sample.c None] in
  Sample.accessibleIndex Sample.tasks Sample.db "group" st (VStr "x") = [Sample.a; Sample.b]
  ∧ (store_find Sample.tasks Sample.db Sample.heap (FilterFunction 0) st).1
    = Returned [Sample.c]
  ∧ (store_removeById "b" None st).1 = Returned true
  ∧ Sample.accessibleIndex Sample.tasks Sample.db "group"
      (store_removeById "b" None st).2 (VStr "x") = [Sample.a].
Proof. vm_compute. done. Qed.

(** * Properties *)

(** ** The observable array *)

Lemma array_remove_found entity (l : list Entity) :
  entity ∈ l → (array_remove entity l).1 = true.
Proof.
  induction l as [|x l IH]; simpl.
  - by intros ?%elem_of_nil.
  - case_bool_decide as Hx; [done|].
    intros [->|Hin]%elem_of_cons; [done|].
    destruct (array_remove entity l) as [found rest]. by apply IH.
Qed.

Lemma array_remove_length entity (l : list Entity) :
  (array_remove entity l).1 = true →
  S (length (removeFirst entity l)) = length l.
Proof.
  unfold removeFirst. induction l as [|x l IH]; simpl; [done|].
  case_bool_decide; [done|].
  destruct (array_remove entity l) as [found rest]; simpl in *.
  intros Hf. by rewrite IH.
Qed.

Lemma removeFirst_sublist entity (l : list Entity) :
  removeFirst entity l `sublist_of` l.
Proof.
  unfold removeFirst. induction l as [|x l IH]; simpl; [done|].
  case_bool_decide.
  - by apply sublist_cons.
  - destruct (array_remove entity l) as [found rest]; simpl in *.
    by apply sublist_skip.
Qed.

Lemma removeFirst_elem_of entity other (l : list Entity) :
  other ∈ removeFirst entity l → other ∈ l.
Proof. intros Hin. eapply elem_of_sublist, removeFirst_sublist. done. Qed.

Lemma removeFirst_keeps_others entity other (l : list Entity) :
  other ∈ l → other ≠ entity → other ∈ removeFirst entity l.
Proof.
  unfold removeFirst. intros Hin Hne.
  induction l as [|x l IH]; simpl; [by apply elem_of_nil in Hin|].
  apply elem_of_cons in Hin. case_bool_decide as Hx.
  - destruct Hin as [->|Hin]; [congruence|done].
  - destruct (array_remove entity l) as [found rest]; simpl in *.
    destruct Hin as [->|Hin]; [by left|right; by apply IH].
Qed.

(** Removal takes exactly one entry of the entity out. *)
Lemma removeFirst_Permutation entity (l : list Entity) :
  entity ∈ l → l ≡ₚ entity :: removeFirst entity l.
Proof.
  unfold removeFirst. induction l as [|x l IH]; simpl.
  - by intros ?%elem_of_nil.
  - case_bool_decide as Hx; [by subst|].
    intros [->|Hin]%elem_of_cons; [done|].
    destruct (array_remove entity l) as [found rest]; simpl in *.
    rewrite (IH Hin) at 1. apply Permutation_swap.
Qed.

(** With identities distinct along the sequence, removing an entry removes
    its identity from the sequence. *)
Lemma removeFirst_id_gone (f : Entity → string) entity (l : list Entity) :
  NoDup (f <$> l) → entity ∈ l → f entity ∉ f <$> removeFirst entity l.
Proof.
  unfold removeFirst. induction l as [|x l IH]; simpl.
  - by intros _ ?%elem_of_nil.
  - intros [Hx Hnd]%NoDup_cons Hin. case_bool_decide as Heq.
    + by subst x.
    + apply elem_of_cons in Hin as [->|Hin]; [done|].
      destruct (array_remove entity l) as [found rest] eqn:Hrm; simpl in *.
      intros [Hfx|Hrest]%elem_of_cons; [|by apply IH].
      apply Hx. rewrite <- Hfx. by apply list_elem_of_fmap_2.
Qed.

(** ** Sorting *)

Lemma insertBy_Permutation cmp x l : insertBy cmp x l ≡ₚ x :: l.
Proof.
  induction l as [|y l IH]; simpl; [done|].
  destruct (cmp x y <=? 0)%Z; [done|].
  rewrite IH. apply Permutation_swap.
Qed.

Lemma sortWith_Permutation cmp l : sortWith cmp l ≡ₚ l.
Proof.
  induction l as [|x l IH]; simpl; [done|].
  by rewrite insertBy_Permutation, IH.
Qed.

Lemma insertBy_sorted cmp x l :
  orders cmp →
  StronglySorted (precedes cmp) l →
  StronglySorted (precedes cmp) (insertBy cmp x l).
Proof.
  intros [Htotal Htrans]. induction l as [|y l IH]; simpl; intros Hsorted.
  - repeat constructor.
  - apply StronglySorted_cons in Hsorted as [Hy Hl].
    destruct (cmp x y <=? 0)%Z eqn:Hxy.
    + apply Z.leb_le in Hxy. apply StronglySorted_cons. split.
      * constructor; [done|]. eapply Forall_impl; [exact Hy|].
        intros z Hyz. by apply (Htrans x y z).
      * by apply StronglySorted_cons.
    + apply Z.leb_gt in Hxy. apply StronglySorted_cons. split; [|by apply IH].
      rewrite insertBy_Permutation. constructor; [|done].
      destruct (Htotal x y) as [Hle|Hle]; [|done]. unfold precedes in Hle. lia.
Qed.

Lemma sortWith_sorted cmp l :
  orders cmp → StronglySorted (precedes cmp) (sortWith cmp l).
Proof.
  intros Hcmp. induction l as [|x l IH]; simpl; [constructor|].
  by apply insertBy_sorted.
Qed.

(** ** Structural equality of query arguments *)

Lemma hasProperty_elem_of fields key :
  hasProperty fields key = true ↔ ∃ kv, kv ∈ fields ∧ kv.1 = key.
Proof.
  unfold hasProperty. rewrite bool_decide_eq_true, list_elem_of_fmap.
  split; intros (kv & H1 & H2); exists kv; by split.
Qed.

Lemma object_within_spec o1 o2 :
  object_within o1 o2 = true ↔
  ∀ kv, kv ∈ o1 →
    hasProperty o2 kv.1 = true ∧ getProperty o2 kv.1 = getProperty o1 kv.1.
Proof.
  unfold object_within. rewrite forallb_forall. split; intros H kv Hin.
  - apply list_elem_of_In, H in Hin.
    apply andb_true_iff in Hin as [? ?%bool_decide_eq_true]. done.
  - apply list_elem_of_In, H in Hin as [? ?].
    apply andb_true_iff. by rewrite bool_decide_eq_true.
Qed.

Lemma object_within_refl o : object_within o o = true.
Proof.
  apply object_within_spec. intros kv Hin. split; [|done].
  apply hasProperty_elem_of. eauto.
Qed.

Lemma object_within_trans o1 o2 o3 :
  object_within o1 o2 = true → object_within o2 o3 = true →
  object_within o1 o3 = true.
Proof.
  rewrite !object_within_spec. intros H12 H23 kv Hin.
  destruct (H12 _ Hin) as [Hhas Hget].
  apply hasProperty_elem_of in Hhas as (kv2 & Hin2 & Hkey).
  destruct (H23 _ Hin2) as [Hhas3 Hget3]. rewrite Hkey in *.
  split; [done|congruence].
Qed.

Lemma findInput_equal_refl a : findInput_equal a a = true.
Proof.
  destruct a; simpl; [by apply bool_decide_eq_true|].
  unfold objects_equal. by rewrite object_within_refl.
Qed.

Lemma findInput_equal_sym a b : findInput_equal a b = findInput_equal b a.
Proof.
  destruct a, b; simpl; try done.
  - apply bool_decide_ext. naive_solver.
  - unfold objects_equal. apply andb_comm.
Qed.

Lemma findInput_equal_trans a b c :
  findInput_equal a b = true → findInput_equal b c = true →
  findInput_equal a c = true.
Proof.
  destruct a, b, c; simpl; try done.
  - rewrite !bool_decide_eq_true. congruence.
  - unfold objects_equal. rewrite !andb_true_iff. intros [? ?] [? ?].
    split; by eapply object_within_trans.
Qed.

Lemma sortInput_equal_eq a b : sortInput_equal a b = true ↔ a = b.
Proof.
  destruct a, b; simpl. rewrite bool_decide_eq_true. naive_solver.
Qed.

Lemma args_equal_refl a : args_equal a a = true.
Proof.
  destruct a as [[f|] [s|]]; unfold args_equal; simpl;
    rewrite ?findInput_equal_refl; try done; by apply sortInput_equal_eq.
Qed.

Lemma sortInput_equal_sym a b : sortInput_equal a b = sortInput_equal b a.
Proof. destruct a, b; simpl. apply bool_decide_ext. naive_solver. Qed.

Lemma option_equal_sym {A} (eqb : A → A → bool) a b :
  (∀ x y, eqb x y = eqb y x) → option_equal eqb a b = option_equal eqb b a.
Proof. intros Hsym. destruct a, b; simpl; auto. Qed.

Lemma args_equal_sym a b : args_equal a b = args_equal b a.
Proof.
  unfold args_equal.
  rewrite (option_equal_sym findInput_equal) by apply findInput_equal_sym.
  by rewrite (option_equal_sym sortInput_equal) by apply sortInput_equal_sym.
Qed.

Lemma args_equal_trans a b c :
  args_equal a b = true → args_equal b c = true → args_equal a c = true.
Proof.
  destruct a as [[f|] [s|]], b as [[f'|] [s'|]], c as [[f''|] [s''|]];
    unfold args_equal; simpl; try done;
    rewrite ?andb_true_iff, ?sortInput_equal_eq;
    try (intros [? ?] [? ?]; split); try congruence;
    eauto using findInput_equal_trans.
Qed.

(** Structurally equal arguments find the same entry of the memo table. *)
Lemma memo_lookup_args_equal a b cache :
  args_equal a b = true → memo_lookup a cache = memo_lookup b cache.
Proof.
  intros Hab. induction cache as [|[[f s] q] cache IH]; simpl; [done|].
  rewrite IH.
  assert (args_equal (f, s) a = args_equal (f, s) b) as ->; [|done].
  apply eq_true_iff_eq. split; intros H.
  - by eapply args_equal_trans.
  - eapply args_equal_trans; [exact H|]. by rewrite args_equal_sym.
Qed.

(** ** What each method does to the state *)

Ltac unfold_action :=
  repeat progress unfold store_add, store_findById, store_assertFindById,
    store_query, store_sort, store_find, store_findFirst,
    store_findByUniqueIndex, store_assertFindByUniqueIndex, store_removeById,
    store_destroy, store_getKeyIndex, createOrReuseQuery, runInAction,
    events_emit, events_destroy, entity_cleanup_clean, cleanups_clean,
    console_warn, assert, throw, getState, modifyState, mbind, mret,
    Action_bind, Action_ret in *.

(** *** Actions that leave the entities alone *)

Lemma readOnly_ret {A} (a : A) : readOnly (mret a).
Proof. by intros st. Qed.

Lemma readOnly_throw {A} e : readOnly (@throw A e).
Proof. by intros st. Qed.

Lemma readOnly_getState : readOnly getState.
Proof. by intros st. Qed.

Lemma readOnly_bind {A B} (m : Action A) (k : A → Action B) :
  readOnly m → (∀ a, readOnly (k a)) → readOnly (m ≫= k).
Proof.
  intros Hm Hk st. specialize (Hm st). unfold mbind, Action_bind.
  destruct (m st) as [[a|e] st']; simpl in *; [|done].
  destruct Hm as (Hi & Hm & He & Hd). specialize (Hk a st').
  destruct Hk as (Hi' & Hm' & He' & Hd').
  unfold sameEntities. by rewrite Hi', Hm', He', Hd'.
Qed.

Lemma readOnly_set_queryCache f : readOnly (modifyState (set_queryCache f)).
Proof. by intros st. Qed.

Lemma readOnly_set_queryIndexes f : readOnly (modifyState (set_queryIndexes f)).
Proof. by intros st. Qed.

Lemma readOnly_set_indexesMade f : readOnly (modifyState (set_indexesMade f)).
Proof. by intros st. Qed.

Lemma readOnly_console_warn message : readOnly (console_warn message).
Proof. by intros st. Qed.

Lemma readOnly_assert {A} (value : option A) messageOrError :
  readOnly (assert value messageOrError).
Proof. destruct value; [apply readOnly_ret|apply readOnly_throw]. Qed.

Create HintDb readonly.
#[global] Hint Resolve readOnly_ret readOnly_throw readOnly_getState
  readOnly_set_queryCache readOnly_set_queryIndexes readOnly_set_indexesMade
  readOnly_console_warn readOnly_assert : readonly.

Ltac read_only :=
  repeat first
    [ progress auto with readonly
    | apply readOnly_bind; [|intros ?]
    | match goal with
      | |- readOnly (match ?x with _ => _ end) => destruct x
      end ].

(** *** Actions that maintain a property *)

Lemma keeps_ret P {A} (a : A) : keeps P (mret a).
Proof. by intros st. Qed.

Lemma keeps_throw P {A} e : keeps P (@throw A e).
Proof. by intros st. Qed.

Lemma keeps_getState P : keeps P getState.
Proof. by intros st. Qed.

Lemma keeps_modifyState P f : (∀ st, P st → P (f st)) → keeps P (modifyState f).
Proof. intros Hf st. apply Hf. Qed.

Lemma keeps_bind P {A B} (m : Action A) (k : A → Action B) :
  keeps P m → (∀ a, keeps P (k a)) → keeps P (m ≫= k).
Proof.
  intros Hm Hk st HP. specialize (Hm st HP). unfold mbind, Action_bind.
  destruct (m st) as [[a|e] st']; simpl in *; [|done]. by apply Hk.
Qed.

Lemma keeps_assert P {A} (value : option A) messageOrError :
  keeps P (assert value messageOrError).
Proof. destruct value; [apply keeps_ret|apply keeps_throw]. Qed.

Ltac keeps_cache :=
  repeat first
    [ solve [eauto 2]
    | apply keeps_ret | apply keeps_throw | apply keeps_getState
    | apply keeps_assert
    | apply keeps_modifyState; by intros ?
    | apply keeps_bind; [|intros ?]
    | match goal with
      | |- keeps _ (match ?x with _ => _ end) => destruct x
      end ].

Section Properties.

Variable definition : EntityDefinition.
Variable db : ClientDb.
Variable queryIndex_find : string → StoreState → Value → list Entity.
Variable heap : FunctionHeap.

Local Abbreviation step := (perform definition db queryIndex_find heap).
Local Abbreviation run := (performAll definition db queryIndex_find heap).
Local Abbreviation getEntityId := (getEntityId definition).

Lemma store_add_run entity source st :
  store_add definition entity source st =
  (Returned entity,
   {| items := items st ++ [entity];
      itemsMap := <[getEntityId entity := entity]> (itemsMap st);
      queryIndexes := queryIndexes st; queryCache := queryCache st;
      emitted := emitted st ++ [itemAdded entity (default "user" source)];
      eventsDestroyed := eventsDestroyed st; disposed := disposed st;
      warnings := warnings st; cleanupsCleaned := cleanupsCleaned st;
      indexesMade := indexesMade st |}).
Proof. reflexivity. Qed.

Lemma store_removeById_miss id source st :
  itemsMap st !! id = None →
  store_removeById id source st = (removeById_unowned id, st).
Proof.
  intros Hmiss. unfold_action. unfold itemsMap_get, removeById_unowned.
  rewrite Hmiss. by destruct (inherited id).
Qed.

Lemma store_removeById_hit id source st entity :
  itemsMap st !! id = Some entity →
  store_removeById id source st =
  (Returned (array_remove entity (items st)).1,
   {| items := removeFirst entity (items st);
      itemsMap := delete id (itemsMap st);
      queryIndexes := queryIndexes st; queryCache := queryCache st;
      emitted := emitted st ++ [itemRemoved entity (default "user" source)];
      eventsDestroyed := eventsDestroyed st;
      disposed := disposed st ++ [entity];
      warnings := warnings st; cleanupsCleaned := cleanupsCleaned st;
      indexesMade := indexesMade st |}).
Proof.
  intros Hhit. unfold_action. unfold itemsMap_get. rewrite Hhit.
  unfold removeFirst. simpl. by destruct (array_remove entity (items st)).
Qed.

Lemma readOnly_getKeyIndex key : readOnly (store_getKeyIndex key).
Proof. unfold store_getKeyIndex. read_only. Qed.

Lemma readOnly_createOrReuseQuery filter sort :
  readOnly (createOrReuseQuery filter sort).
Proof. unfold createOrReuseQuery. read_only. Qed.

Lemma readOnly_findByUniqueIndex key value :
  readOnly (store_findByUniqueIndex definition db queryIndex_find key value).
Proof.
unfold store_findByUniqueIndex. pose proof readOnly_getKeyIndex. read_only.
Qed.

Lemma readOnly_perform st call :
  (if isMutation call then True else sameEntities st (step st call)).
Proof.
pose proof readOnly_getKeyIndex. pose proof readOnly_createOrReuseQuery.
pose proof readOnly_findByUniqueIndex.
destruct call; simpl; try done;
  match goal with |- sameEntities _ (?m _).2 => cut (readOnly m); [by intros Hr|] end;
  unfold store_findById, store_assertFindById, store_find, store_findFirst,
    store_assertFindByUniqueIndex, store_query, store_sort; read_only.
Qed.

(** Only [add] and [removeById] touch the sequence, the map, the event
    log and the disposers. *)
Lemma perform_lookup_frame st call :
  isMutation call = false →
  items (step st call) = items st
  ∧ itemsMap (step st call) = itemsMap st
  ∧ emitted (step st call) = emitted st
  ∧ disposed (step st call) = disposed st.
Proof.
  intros Hlookup. pose proof (readOnly_perform st call) as Hframe.
  by rewrite Hlookup in Hframe.
Qed.

Lemma performAll_app st calls1 calls2 :
  run st (calls1 ++ calls2) = run (run st calls1) calls2.
Proof. apply foldl_app. Qed.

(** *** The map never points outside the sequence *)

Lemma mapLinked_empty : mapLinked definition emptyStore.
Proof. intros id entity Hin. simpl in Hin. by rewrite lookup_empty in Hin. Qed.

Lemma mapLinked_perform st call :
  mapLinked definition st → mapLinked definition (step st call).
Proof.
  intros Hlinked. destruct (isMutation call) eqn:Hmut.
  - destruct call; try discriminate; unfold perform.
    + rewrite store_add_run. intros id other; simpl.
      rewrite lookup_insert. case_decide as Hid.
      * intros [= <-]. split; [|done]. apply elem_of_app. right. by left.
      * intros Hin. destruct (Hlinked _ _ Hin) as [Hi ?].
        split; [|done]. apply elem_of_app. by left.
    + destruct (itemsMap st !! id) as [entity|] eqn:Hid.
      * rewrite (store_removeById_hit _ _ _ _ Hid). intros id' other; simpl.
        rewrite lookup_delete. case_decide as Hne; [done|].
        intros Hin. destruct (Hlinked _ _ Hin) as [Hi Hk].
        split; [|done]. apply removeFirst_keeps_others; [done|].
        intros ->. destruct (Hlinked _ _ Hid) as [_ Hk']. congruence.
      * by rewrite (store_removeById_miss _ _ _ Hid).
  - destruct (perform_lookup_frame st call Hmut) as (Hi & Hm & _).
    intros id entity. rewrite Hi, Hm. apply Hlinked.
Qed.

Lemma mapLinked_performAll st calls :
  mapLinked definition st → mapLinked definition (run st calls).
Proof.
  revert st. induction calls as [|call calls IH]; intros st Hst; [done|].
  simpl. apply IH. by apply mapLinked_perform.
Qed.

(** After any calls on a new store, [removeById] of a mapped identity finds
    its entity in the sequence. *)
Lemma store_removeById_live calls id source entity :
  itemsMap (run emptyStore calls) !! id = Some entity →
  store_removeById id source (run emptyStore calls) =
  (Returned true,
   {| items := removeFirst entity (items (run emptyStore calls));
      itemsMap := delete id (itemsMap (run emptyStore calls));
      queryIndexes := queryIndexes (run emptyStore calls);
      queryCache := queryCache (run emptyStore calls);
      emitted := emitted (run emptyStore calls)
                 ++ [itemRemoved entity (default "user" source)];
      eventsDestroyed := eventsDestroyed (run emptyStore calls);
      disposed := disposed (run emptyStore calls) ++ [entity];
      warnings := warnings (run emptyStore calls);
      cleanupsCleaned := cleanupsCleaned (run emptyStore calls);
      indexesMade := indexesMade (run emptyStore calls) |}).
Proof.
  intros Hid. rewrite (store_removeById_hit _ _ _ _ Hid).
  destruct (mapLinked_performAll emptyStore calls mapLinked_empty _ _ Hid)
    as [Hin _].
  by rewrite (array_remove_found _ _ Hin).
Qed.

(** *** A map slot stays put under calls that keep it *)

Lemma slot_kept_perform st entity call :
  keepsSlot definition entity call = true →
  itemsMap st !! getEntityId entity = Some entity →
  itemsMap (step st call) !! getEntityId entity = Some entity.
Proof.
  intros Hkeep Hslot. destruct (isMutation call) eqn:Hmut.
  - destruct call; try discriminate; unfold perform; simpl in Hkeep.
    + rewrite store_add_run; simpl. rewrite lookup_insert.
      case_decide as Hid; [|done].
      apply orb_true_iff in Hkeep as [Hne|Heq].
      * apply negb_true_iff, bool_decide_eq_false in Hne. done.
      * apply bool_decide_eq_true in Heq. by subst.
    + apply negb_true_iff, bool_decide_eq_false in Hkeep.
      destruct (itemsMap st !! id) as [other|] eqn:Hid.
      * rewrite (store_removeById_hit _ _ _ _ Hid); simpl.
        by rewrite lookup_delete_ne.
      * by rewrite (store_removeById_miss _ _ _ Hid).
  - destruct (perform_lookup_frame st call Hmut) as (_ & Hm & _).
    by rewrite Hm.
Qed.

Lemma slot_kept_performAll st entity calls :
  forallb (keepsSlot definition entity) calls = true →
  itemsMap st !! getEntityId entity = Some entity →
  itemsMap (run st calls) !! getEntityId entity = Some entity.
Proof.
  revert st. induction calls as [|call calls IH]; intros st; simpl; [done|].
  intros [Hcall Hrest]%andb_true_iff Hslot.
  apply IH; [done|]. by apply slot_kept_perform.
Qed.

Lemma isAccessible_passesValidator entity :
  isAccessible definition db entity = passesValidator definition db entity.
Proof.
  unfold isAccessible, passesValidator, getIsEntityAccessable.
  by destruct (accessValidator (config definition)).
Qed.

Lemma findById_mapped st id entity :
  itemsMap st !! id = Some entity →
  findById definition db st id =
  if isAccessible definition db entity then Some (OwnEntity entity) else None.
Proof.
  intros Hid. unfold findById, isAccessible, itemsMap_get. rewrite Hid.
  destruct (getIsEntityAccessable definition db) as [accessible|]; [|done].
  by destruct (accessible (OwnEntity entity)).
Qed.

Lemma findById_unmapped st id :
  itemsMap st !! id = None →
  findById definition db st id = findById_unowned definition db id.
Proof.
  intros Hid.
  unfold findById, findById_unowned, itemsMap_get, getIsEntityAccessable.
  rewrite Hid. destruct (inherited id); [|done].
  destruct (accessValidator (config definition)) as [validator|]; [|done].
  unfold cachedComputed. by destruct (validator (Inherited id) db).
Qed.

Lemma findById_unowned_plain id :
  inherited id = false → findById_unowned definition db id = None.
Proof. intros Hplain. unfold findById_unowned. by rewrite Hplain. Qed.

Lemma removeById_unowned_plain id :
  inherited id = false → removeById_unowned id = Returned false.
Proof. intros Hplain. unfold removeById_unowned. by rewrite Hplain. Qed.

(** What [removeById] of a mapped identity does to the sequence, after any
    calls on a new store: exactly one entry of the entity is taken out and
    the others stay in their order. *)
Lemma store_removeById_live_items calls id source entity :
  itemsMap (run emptyStore calls) !! id = Some entity →
  entity ∈ items (run emptyStore calls)
  ∧ items (store_removeById id source (run emptyStore calls)).2
    = removeFirst entity (items (run emptyStore calls))
  ∧ items (run emptyStore calls)
    ≡ₚ entity :: items (store_removeById id source (run emptyStore calls)).2
  ∧ items (store_removeById id source (run emptyStore calls)).2
    `sublist_of` items (run emptyStore calls)
  ∧ (NoDup (items (run emptyStore calls)) →
     entity ∉ items (store_removeById id source (run emptyStore calls)).2).
Proof.
  intros Hid.
  destruct (mapLinked_performAll emptyStore calls mapLinked_empty _ _ Hid)
    as [Hin _].
  rewrite (store_removeById_live _ _ _ _ Hid); simpl.
  pose proof (removeFirst_Permutation entity _ Hin) as Hperm.
  split_and!; [done|done|done|apply removeFirst_sublist|].
  intros Hnd Hstill. rewrite Hperm in Hnd.
  by apply NoDup_cons in Hnd as [Hnotin _].
Qed.

(** ** Lookup by identity *)

(** C1 (as amended): an entity passed to [add] is what [findById] returns
    for its identity (the string coercion of its key field), provided the
    validator, when one is configured, accepts it, and as long as no later
    call is a [removeById] of that identity or an [add] of another entity
    with the same identity. *)
Theorem findById_after_add st entity source later :
  forallb (keepsSlot definition entity) later = true →
  isAccessible definition db entity = true →
  findById definition db (run (step st (CallAdd entity source)) later)
    (toString (entity_get entity (keyField (config definition))))
  = Some (OwnEntity entity).
Proof.
  intros Hlater Hacc.
  change (toString _) with (getEntityId entity).
  rewrite (findById_mapped _ _ entity), Hacc; [done|].
  apply slot_kept_performAll; [done|].
  unfold perform. rewrite store_add_run; simpl. apply lookup_insert_eq.
Qed.

(** ** Removal by identity *)

(** C2 (as amended): on a store reached by any calls, and for an identity
    that is not the name of a member of [Object.prototype], [removeById] of
    an identity that is not in the map returns [false] and changes nothing
    (so emits nothing); of an identity that is in the map it returns [true],
    runs the entity's disposer, takes exactly one entry of the entity, the
    first, out of the sequence (so the entity has left the sequence unless
    it was in it more than once), deletes the identity from the map, emits
    exactly one [itemRemoved], and [findById] of the identity is null
    afterwards. *)
Theorem removeById_absent_or_present calls id source :
  inherited id = false →
  let st := run emptyStore calls in
  let after := (store_removeById id source st).2 in
  (itemsMap st !! id = None →
     store_removeById id source st = (Returned false, st))
  ∧ (∀ entity, itemsMap st !! id = Some entity →
       (store_removeById id source st).1 = Returned true
       ∧ disposed after = disposed st ++ [entity]
       ∧ entity ∈ items st
       ∧ items after = removeFirst entity (items st)
       ∧ items st ≡ₚ entity :: items after
       ∧ items after `sublist_of` items st
       ∧ (NoDup (items st) → entity ∉ items after)
       ∧ itemsMap after = delete id (itemsMap st)
       ∧ emitted after
         = emitted st ++ [itemRemoved entity (default "user" source)]
       ∧ findById definition db after id = None).
Proof.
  intros Hplain st after. split.
  - intros Hid. rewrite (store_removeById_miss _ _ _ Hid).
    by rewrite removeById_unowned_plain.
  - intros entity Hid. subst after.
    destruct (store_removeById_live_items calls id source entity Hid)
      as (Hin & Hitems & Hperm & Hsub & Hgone).
    subst st. split_and!; try done.
    all: rewrite (store_removeById_live _ _ _ _ Hid); simpl; try done.
    rewrite findById_unmapped by (simpl; apply lookup_delete_eq).
    by apply findById_unowned_plain.
Qed.

(** C9 (as amended): an entity that is in the map but rejected by the
    validator is invisible to [findById], yet [removeById] of its identity
    returns [true], runs its disposer, takes exactly one entry of it, the
    first, out of the sequence (so it has left the sequence unless it was in
    it more than once), deletes its identity from the map and emits
    [itemRemoved]: removal looks at the map only. *)
Theorem removeById_ignores_access calls id entity source :
  let st := run emptyStore calls in
  let after := (store_removeById id source st).2 in
  itemsMap st !! id = Some entity →
  passesValidator definition db entity = false →
  findById definition db st id = None
  ∧ (store_removeById id source st).1 = Returned true
  ∧ disposed after = disposed st ++ [entity]
  ∧ entity ∈ items st
  ∧ items after = removeFirst entity (items st)
  ∧ items st ≡ₚ entity :: items after
  ∧ items after `sublist_of` items st
  ∧ (NoDup (items st) → entity ∉ items after)
  ∧ itemsMap after = delete id (itemsMap st)
  ∧ itemsMap after !! id = None
  ∧ emitted after
    = emitted st ++ [itemRemoved entity (default "user" source)].
Proof.
  intros st after Hid Hrejected. subst after.
  destruct (store_removeById_live_items calls id source entity Hid)
    as (Hin & Hitems & Hperm & Hsub & Hgone).
  subst st. split_and!; try done.
  - by rewrite (findById_mapped _ _ _ Hid), isAccessible_passesValidator,
      Hrejected.
  - by rewrite (store_removeById_live _ _ _ _ Hid).
  - by rewrite (store_removeById_live _ _ _ _ Hid).
  - by rewrite (store_removeById_live _ _ _ _ Hid).
  - rewrite (store_removeById_live _ _ _ _ Hid); simpl. apply lookup_delete_eq.
  - by rewrite (store_removeById_live _ _ _ _ Hid).
Qed.

(** ** Sequence and map *)

Lemma storeInvariant_of_links st :
  mapLinked definition st → sequenceLinked definition st →
  NoDup (sequenceIds definition st) → storeInvariant definition st.
Proof.
  intros Hmap Hseq Hnd. split; [|done]. apply set_eq. intros id.
  rewrite elem_of_dom, elem_of_list_to_set. unfold sequenceIds.
  rewrite list_elem_of_fmap. split.
  - intros [entity Hid]. destruct (Hmap _ _ Hid) as [Hin Hkey]. eauto.
  - intros (entity & -> & Hin). exists entity. by apply Hseq.
Qed.

Lemma links_add st entity source :
  itemsMap st !! getEntityId entity = None →
  sequenceLinked definition st → NoDup (sequenceIds definition st) →
  sequenceLinked definition (step st (CallAdd entity source))
  ∧ NoDup (sequenceIds definition (step st (CallAdd entity source))).
Proof.
  intros Hfresh Hseq Hnd. unfold perform, sequenceIds, sequenceLinked.
  rewrite store_add_run; simpl. split.
  - intros other [Hin| ->%list_elem_of_singleton]%elem_of_app.
    + rewrite lookup_insert_ne; [by apply Hseq|].
      intros Heq. specialize (Hseq _ Hin). congruence.
    + apply lookup_insert_eq.
  - rewrite fmap_app. apply NoDup_app. split_and!; [done| |apply NoDup_singleton].
    intros id (other & -> & Hin)%list_elem_of_fmap Hid%list_elem_of_singleton.
    specialize (Hseq _ Hin). congruence.
Qed.

Lemma links_removeById st id source :
  mapLinked definition st →
  sequenceLinked definition st → NoDup (sequenceIds definition st) →
  sequenceLinked definition (step st (CallRemoveById id source))
  ∧ NoDup (sequenceIds definition (step st (CallRemoveById id source))).
Proof.
  intros Hmap Hseq Hnd. unfold perform, sequenceIds, sequenceLinked.
  destruct (itemsMap st !! id) as [entity|] eqn:Hid.
  - rewrite (store_removeById_hit _ _ _ _ Hid); simpl.
    destruct (Hmap _ _ Hid) as [Hin Hkey]. split.
    + intros other Hother. rewrite lookup_delete_ne.
      * apply Hseq. by eapply removeFirst_elem_of.
      * intros Heq.
        apply (removeFirst_id_gone getEntityId entity (items st) Hnd Hin).
        rewrite Hkey, Heq. by apply list_elem_of_fmap_2.
    + eapply sublist_NoDup; [exact Hnd|].
      apply fmap_sublist, removeFirst_sublist.
  - by rewrite (store_removeById_miss _ _ _ Hid).
Qed.

Lemma links_performAll st calls :
  addsFresh definition db queryIndex_find heap st calls = true →
  mapLinked definition st →
  sequenceLinked definition st → NoDup (sequenceIds definition st) →
  mapLinked definition (run st calls)
  ∧ sequenceLinked definition (run st calls)
  ∧ NoDup (sequenceIds definition (run st calls)).
Proof.
  revert st. induction calls as [|call calls IH]; intros st; simpl; [done|].
  intros [Hcall Hrest]%andb_true_iff Hmap Hseq Hnd.
  apply IH; [done|by apply mapLinked_perform|..].
  all: destruct (isMutation call) eqn:Hmut.
  all: try (destruct (perform_lookup_frame st call Hmut) as (Hi & Hm & _);
            unfold sequenceLinked, sequenceIds; rewrite Hi, ?Hm; done).
  all: destruct call; try discriminate.
  all: try (apply bool_decide_eq_true in Hcall; by apply links_add).
  all: by apply links_removeById.
Qed.

(** C7 (as amended): after every sequence of calls in which each [add]
    supplies an identity that no live entity holds at that moment, the
    identities of the ordered sequence are exactly the keys of the identity
    map, and no two entries of the sequence carry the same identity. *)
Theorem storeInvariant_fresh_adds calls :
  addsFresh definition db queryIndex_find heap emptyStore calls = true →
  storeInvariant definition (run emptyStore calls).
Proof.
  intros Hfresh.
  destruct (links_performAll emptyStore calls Hfresh) as (Hmap & Hseq & Hnd).
  - apply mapLinked_empty.
  - by intros entity Hin%elem_of_nil.
  - apply NoDup_nil_2.
  - by apply storeInvariant_of_links.
Qed.

(** ** Lookup through a unique index *)

Lemma store_getKeyIndex_frame key st :
  warnings (store_getKeyIndex key st).2 = warnings st.
Proof. unfold_action. by destruct (queryIndexes st !! key). Qed.

Lemma store_findByUniqueIndex_run key value st :
  store_findByUniqueIndex definition db queryIndex_find key value st =
  match queryIndex_find key (store_getKeyIndex key st).2 value with
  | [] => (Returned None, (store_getKeyIndex key st).2)
  | [only] =>
      (Returned (if isAccessible definition db only then Some only else None),
       (store_getKeyIndex key st).2)
  | first :: _ :: _ =>
      (Returned (if isAccessible definition db first then Some first else None),
       set_warnings (λ log, log ++ [ambiguityWarning key value])
         (store_getKeyIndex key st).2)
  end.
Proof.
  unfold store_findByUniqueIndex, isAccessible.
  unfold mbind at 1. unfold Action_bind.
  assert (∃ index, (store_getKeyIndex key st).1 = Returned index) as [index Hix].
  { unfold_action. destruct (queryIndexes st !! key); simpl; eauto. }
  destruct (store_getKeyIndex key st) as [out indexed]; simpl in *. subst out.
  unfold_action.
  destruct (queryIndex_find key indexed value) as [|first [|second rest]];
    [done|..]; simpl;
    destruct (getIsEntityAccessable definition db) as [accessible|]; try done;
    by destruct (accessible (OwnEntity first)).
Qed.

(** C5: [findByUniqueIndex] never fails, and its result follows the number
    of entities the field's index reports as holding the value: none gives
    null; exactly one gives that match; more than one gives the first match
    in the index's order and records one diagnostic, while fewer record
    none; and in either case a match the validator rejects is turned into
    null. *)
Theorem findByUniqueIndex_by_match_count st key value :
  let indexed := (store_getKeyIndex key st).2 in
  let results := queryIndex_find key indexed value in
  let out := store_findByUniqueIndex definition db queryIndex_find key value st in
  warnings indexed = warnings st
  ∧ (results = [] → out = (Returned None, indexed))
  ∧ (∀ only, results = [only] →
       out = (Returned (if isAccessible definition db only
                        then Some only else None), indexed))
  ∧ (∀ first second rest, results = first :: second :: rest →
       out.1 = Returned (if isAccessible definition db first
                         then Some first else None)
       ∧ warnings out.2 = warnings st ++ [ambiguityWarning key value])
  ∧ (∃ found, out.1 = Returned found).
Proof.
  intros indexed results out. subst out.
  rewrite store_findByUniqueIndex_run. fold indexed. fold results.
  split_and!.
  - apply store_getKeyIndex_frame.
  - by intros ->.
  - by intros only ->.
  - intros first second rest ->. simpl. split; [done|].
    subst indexed. by rewrite store_getKeyIndex_frame.
  - destruct results as [|first [|second rest]]; simpl; eauto.
Qed.

(** C10: when the index reports more than one match, the outcome is
    decided by the first match alone: if the validator rejects it the call
    returns null, whatever the validator says of the later matches. *)
Theorem findByUniqueIndex_checks_first_only st key value first rest :
  queryIndex_find key (store_getKeyIndex key st).2 value = first :: rest →
  rest ≠ [] →
  isAccessible definition db first = false →
  (store_findByUniqueIndex definition db queryIndex_find key value st).1
  = Returned None.
Proof.
  intros Hresults Hmore Hrejected.
  rewrite store_findByUniqueIndex_run, Hresults.
  destruct rest as [|second rest]; [done|]. simpl. by rewrite Hrejected.
Qed.

(** ** Lookups and their asserting variants *)

(** X17: the asserting lookups wrap the plain ones.  [assertFindById]
    returns what [findById] returned when that is not null, and otherwise
    throws NotFound carrying the caller's message or error when one is
    given and the default message naming the identity when none is; it
    leaves the state as it was.  [assertFindByUniqueIndex] does the same
    over [findByUniqueIndex], with its own message. *)
Theorem asserts_throw_exactly_on_null st id error key value :
  let byId := store_findById definition db id st in
  let byIndex :=
    store_findByUniqueIndex definition db queryIndex_find key value st in
  let assertById := store_assertFindById definition db id error st in
  let assertByIndex :=
    store_assertFindByUniqueIndex definition db queryIndex_find key value st in
  assertById =
    (match findById definition db st id with
     | Some found => Returned found
     | None => Thrown (NotFound (default (missingIdMessage id) error))
     end, st)
  ∧ ((∃ e, assertById.1 = Thrown e) ↔ byId.1 = Returned None)
  ∧ (∃ found, byIndex.1 = Returned found
       ∧ assertByIndex.1 =
           match found with
           | Some entity => Returned entity
           | None => Thrown (NotFound (missingIndexedMessage key value))
           end)
  ∧ ((∃ e, assertByIndex.1 = Thrown e) ↔ byIndex.1 = Returned None).
Proof.
  intros byId byIndex assertById assertByIndex.
  assert (∃ found, byIndex.1 = Returned found) as [found Hfound].
  { subst byIndex. rewrite store_findByUniqueIndex_run.
    destruct (queryIndex_find _ _ _) as [|first [|second rest]]; simpl; eauto. }
  assert (assertByIndex.1 =
          match found with
          | Some entity => Returned entity
          | None => Thrown (NotFound (missingIndexedMessage key value))
          end) as Hassert.
  { subst assertByIndex byIndex. unfold store_assertFindByUniqueIndex.
    unfold mbind, Action_bind.
    destruct (store_findByUniqueIndex _ _ _ _ _ _) as [out after].
    simpl in Hfound. subst out. by destruct found. }
  split_and!.
  - subst assertById. unfold_action. simpl.
    by destruct (findById definition db st id).
  - subst assertById byId. unfold_action. simpl.
    destruct (findById definition db st id); simpl;
      split; (try by intros [? ?]); eauto; done.
  - eauto.
  - rewrite Hassert, Hfound. destruct found; simpl;
      split; (try by intros [? ?]); eauto; done.
Qed.

(** ** Teardown *)

(** C8 (as amended): [destroy] runs the store's registered cleanups,
    destroys every field index and the event channel; it runs no entity's
    disposer, emits nothing, and leaves the ordered sequence and the
    identity map as they were. *)
Theorem destroy_keeps_entities st :
  let after := (store_destroy st).2 in
  (store_destroy st).1 = Returned tt
  ∧ items after = items st
  ∧ itemsMap after = itemsMap st
  ∧ disposed after = disposed st
  ∧ emitted after = emitted st
  ∧ queryIndexes after = queryIndex_destroy <$> queryIndexes st
  ∧ map_Forall (λ _ index, index_destroyed index = true) (queryIndexes after)
  ∧ eventsDestroyed after = true
  ∧ cleanupsCleaned after = S (cleanupsCleaned st).
Proof.
  simpl. split_and!; try done.
  intros key index. rewrite lookup_fmap.
  destruct (queryIndexes st !! key); simpl; [|done]. by intros [= <-].
Qed.

(** ** Query views *)

(** A property of the memo table that [createOrReuseQuery] maintains is
    maintained by every call. *)
Lemma cache_property_perform (Q : list _ → Prop) st call :
  (∀ filter sort,
     keeps (λ st, Q (queryCache st)) (createOrReuseQuery filter sort)) →
  Q (queryCache st) → Q (queryCache (step st call)).
Proof.
  intros Hquery.
  assert (∀ key, keeps (λ st, Q (queryCache st)) (store_getKeyIndex key)).
  { intros key. unfold store_getKeyIndex. keeps_cache. }
  assert (∀ key value, keeps (λ st, Q (queryCache st))
            (store_findByUniqueIndex definition db queryIndex_find key value)).
  { intros key value. unfold store_findByUniqueIndex, console_warn. keeps_cache. }
  destruct call; unfold perform;
    match goal with |- _ → Q (queryCache (?m _).2) =>
      cut (keeps (λ st, Q (queryCache st)) m); [intros Hk; apply Hk|]
    end;
    unfold store_add, store_removeById, store_findById, store_assertFindById,
      store_find, store_findFirst, store_assertFindByUniqueIndex, store_query,
      store_sort, runInAction, events_emit, entity_cleanup_clean;
    keeps_cache.
Qed.

Lemma cache_property_performAll (Q : list _ → Prop) st calls :
  (∀ filter sort,
     keeps (λ st, Q (queryCache st)) (createOrReuseQuery filter sort)) →
  Q (queryCache st) → Q (queryCache (run st calls)).
Proof.
  intros Hquery. revert st.
  induction calls as [|call calls IH]; intros st HQ; simpl; [done|].
  apply IH. by apply cache_property_perform.
Qed.

Lemma cacheSound_createOrReuseQuery filter sort :
  keeps (λ st, cacheSound (queryCache st)) (createOrReuseQuery filter sort).
Proof.
  intros st Hsound. unfold_action.
  destruct (memo_lookup (filter, sort) (queryCache st)); simpl; [done|].
  by constructor.
Qed.

Lemma cacheSound_run calls : cacheSound (queryCache (run emptyStore calls)).
Proof.
  apply (cache_property_performAll cacheSound).
  - apply cacheSound_createOrReuseQuery.
  - constructor.
Qed.

(** A sound memo table answers a pair of function arguments with a view
    that filters and sorts with those very functions. *)
Lemma memo_lookup_functions cache p s view :
  cacheSound cache →
  memo_lookup (Some (FilterFunction p), Some (SortFunction s)) cache = Some view →
  query_filter view = Some (FilterFunction p)
  ∧ query_sort view = Some (SortFunction s).
Proof.
  induction 1 as [|[[f s'] q] cache [Hf Hs] Hsound IH]; simpl; [done|].
  destruct (args_equal _ _) eqn:Hargs; [|done]. intros [= ->].
  simpl in Hf, Hs. rewrite Hf, Hs. unfold args_equal in Hargs. simpl in Hargs.
  apply andb_true_iff in Hargs as [Hfilter Hsort].
  destruct f as [[r|o]|], s' as [[r']|]; simpl in *; try done.
  apply bool_decide_eq_true in Hfilter, Hsort. by subst.
Qed.

Lemma store_query_run filter sort st :
  ∃ view,
    (store_query filter sort st).1 = Returned view
    ∧ memo_lookup (filter, sort) (queryCache (store_query filter sort st).2)
      = Some view.
Proof.
  unfold_action.
  destruct (memo_lookup (filter, sort) (queryCache st)) as [cached|] eqn:Hmemo;
    simpl.
  - eauto.
  - eexists. split; [done|]. by rewrite args_equal_refl.
Qed.

Lemma memo_entry_createOrReuseQuery args view filter sort :
  keeps (λ st, memo_lookup args (queryCache st) = Some view)
        (createOrReuseQuery filter sort).
Proof.
  intros st Hentry. unfold_action.
  destruct (memo_lookup (filter, sort) (queryCache st)) eqn:Hmemo; simpl;
    [done|].
  destruct (args_equal (filter, sort) args) eqn:Hargs; [|done].
  rewrite (memo_lookup_args_equal _ _ _ Hargs) in Hmemo. congruence.
Qed.

Lemma getRootSource_filter st :
  getRootSource definition db st
  = filter (λ entity, isAccessible definition db entity = true) (items st).
Proof.
  unfold getRootSource, isAccessible.
  destruct (getIsEntityAccessable definition db); [done|].
  induction (items st) as [|x l IH]; [done|].
  rewrite filter_cons_True by done. by rewrite <- IH.
Qed.

(** C3: for every filter predicate and sort comparator, held in the heap
    at references [p] and [s], the view that [query] returns lists, at any
    later moment, the entities of the store for which the predicate holds
    and which the configured validator accepts (all of them when none is
    configured), sorted by the comparator: its [all] is the stable sort of
    that selection, hence a rearrangement of it that is ordered whenever the
    comparator orders. *)
Theorem query_all_sorted_filter calls p s later :
  let out := store_query (Some (FilterFunction p)) (Some (SortFunction s))
               (run emptyStore calls) in
  let now := run out.2 later in
  let selected :=
    filter (λ entity, predicateAt heap p entity = true
                      ∧ passesValidator definition db entity = true)
           (items now) in
  ∃ view,
    out.1 = Returned view
    ∧ query_all definition db heap view now
      = sortWith (comparatorAt heap s) selected
    ∧ query_all definition db heap view now ≡ₚ selected
    ∧ (orders (comparatorAt heap s) →
       StronglySorted (precedes (comparatorAt heap s))
         (query_all definition db heap view now)).
Proof.
  intros out now selected.
  destruct (store_query_run (Some (FilterFunction p)) (Some (SortFunction s))
              (run emptyStore calls)) as (view & Hout & Hmemo).
  fold out in Hout, Hmemo. exists view. split; [done|].
  assert (cacheSound (queryCache out.2)) as Hsound.
  { subst out. apply (cache_property_perform cacheSound _
                        (CallQuery _ _)); [|apply cacheSound_run].
    apply cacheSound_createOrReuseQuery. }
  destruct (memo_lookup_functions _ _ _ _ Hsound Hmemo) as [Hfilter Hsort].
  assert (query_all definition db heap view now
          = sortWith (comparatorAt heap s) selected) as Hall.
  { unfold query_all. rewrite Hfilter, Hsort, getRootSource_filter. simpl.
    rewrite list_filter_filter. apply (f_equal (sortWith _)).
    apply list_filter_iff. intros entity.
    by rewrite isAccessible_passesValidator. }
  rewrite Hall. split_and!; [done|apply sortWith_Permutation|].
  apply sortWith_sorted.
Qed.

(** C4: two calls of [query] with structurally equal arguments return the
    same query view object, whatever calls are made on the store between
    them. *)
Theorem query_same_instance st filter sort filter' sort' between :
  args_equal (filter, sort) (filter', sort') = true →
  ∃ view,
    (store_query filter sort st).1 = Returned view
    ∧ (store_query filter' sort'
         (run (store_query filter sort st).2 between)).1 = Returned view.
Proof.
  intros Hequal.
  destruct (store_query_run filter sort st) as (view & Hout & Hmemo).
  exists view. split; [done|].
  rewrite (memo_lookup_args_equal _ _ _ Hequal) in Hmemo.
  pose proof (cache_property_performAll
                (λ cache, memo_lookup (filter', sort') cache = Some view)
                _ between
                (memo_entry_createOrReuseQuery _ _) Hmemo) as Hlater.
  simpl in Hlater. unfold_action. by rewrite Hlater.
Qed.

End Properties.

(** * The properties on sample stores *)

(** C1 does not hold as the specification states it: [a] is added and never removed, the
    store has no validator, yet after [a'] is added under the same identity
    [findById] of that identity is [a'], not [a]. *)
Lemma findById_after_add_overwritten :
  ¬ (forallb (notRemoving Sample.tasks Sample.a) [CallAdd Sample.a' None] = true →
     isAccessible Sample.tasks Sample.db Sample.a = true →
     findById Sample.tasks Sample.db
       (Sample.after [CallAdd Sample.a None; CallAdd Sample.a' None])
       (toString (entity_get Sample.a (keyField (config Sample.tasks))))
     = Some (OwnEntity Sample.a)).
Proof.
  intros Hstated. specialize (Hstated eq_refl eq_refl).
  vm_compute in Hstated. discriminate.
Qed.

Lemma findById_after_add_witness :
  forallb (keepsSlot Sample.guardedTasks Sample.a)
    [CallAdd Sample.b None; CallRemoveById "b" None;
     CallAdd Sample.a (Some "sync"); CallFindById "a"] = true
  ∧ isAccessible Sample.guardedTasks Sample.db Sample.a = true
  ∧ findById Sample.guardedTasks Sample.db
      (Sample.guardedAfter
         [CallAdd Sample.a None; CallAdd Sample.b None; CallRemoveById "b" None;
          CallAdd Sample.a (Some "sync"); CallFindById "a"])
      "a" = Some (OwnEntity Sample.a).
Proof.
  split; [reflexivity|]. split; [reflexivity|].
  exact (findById_after_add Sample.guardedTasks Sample.db Sample.itemsIndex
           Sample.heap emptyStore Sample.a None
           [CallAdd Sample.b None; CallRemoveById "b" None;
            CallAdd Sample.a (Some "sync"); CallFindById "a"]
           eq_refl eq_refl).
Defined.

(** C2 does not hold as the specification states it.  On a new store
    nothing has the identity ["constructor"], yet [removeById] of it does
    not return [false]: it throws, over the member the identity map
    inherits from [Object.prototype].  And after the same entity was added
    twice, [removeById] of its identity returns [true] and the entity is
    still in the ordered sequence. *)
Lemma removeById_throws_or_keeps_entry :
  (itemsMap emptyStore !! "constructor" = None
   ∧ (store_removeById "constructor" None emptyStore).1
     = Thrown (TypeError "clean"))
  ∧ (itemsMap (Sample.after [CallAdd Sample.a None; CallAdd Sample.a None]) !! "a"
     = Some Sample.a
     ∧ (store_removeById "a" None
          (Sample.after [CallAdd Sample.a None; CallAdd Sample.a None])).1
       = Returned true
     ∧ Sample.a
       ∈ items (store_removeById "a" None
                  (Sample.after [CallAdd Sample.a None; CallAdd Sample.a None])).2).
Proof.
  split; [split; reflexivity|].
  split; [reflexivity|]. split; [reflexivity|].
  change (Sample.a ∈ [Sample.a]). by left.
Qed.

Lemma removeById_absent_or_present_witness :
  inherited "zz" = false
  ∧ inherited "b" = false
  ∧ (itemsMap (Sample.after [CallAdd Sample.a None; CallAdd Sample.b None]) !! "zz"
     = None
     ∧ store_removeById "zz" None
         (Sample.after [CallAdd Sample.a None; CallAdd Sample.b None])
       = (Returned false,
          Sample.after [CallAdd Sample.a None; CallAdd Sample.b None]))
  ∧ (itemsMap (Sample.after [CallAdd Sample.a None; CallAdd Sample.b None]) !! "b"
     = Some Sample.b
     ∧ (store_removeById "b" (Some "sync")
          (Sample.after [CallAdd Sample.a None; CallAdd Sample.b None])).1
       = Returned true
     ∧ (Sample.b
        ∉ items (store_removeById "b" (Some "sync")
                   (Sample.after [CallAdd Sample.a None; CallAdd Sample.b None])).2)
     ∧ findById Sample.tasks Sample.db
         (store_removeById "b" (Some "sync")
            (Sample.after [CallAdd Sample.a None; CallAdd Sample.b None])).2 "b"
       = None).
Proof.
  pose proof (removeById_absent_or_present Sample.tasks Sample.db
                Sample.itemsIndex Sample.heap
                [CallAdd Sample.a None; CallAdd Sample.b None]) as Hremove.
  split; [reflexivity|]. split; [reflexivity|]. split.
  - split; [reflexivity|]. apply (Hremove "zz" None eq_refl). reflexivity.
  - split; [reflexivity|].
    destruct (proj2 (Hremove "b" (Some "sync") eq_refl) Sample.b eq_refl)
      as (Htrue & _ & _ & _ & _ & _ & Hgone & _ & _ & Hnull).
    split; [exact Htrue|]. split; [|exact Hnull].
    apply Hgone. change (NoDup [Sample.a; Sample.b]).
    apply NoDup_cons. split.
    + intros Hin%list_elem_of_singleton. discriminate.
    + apply NoDup_singleton.
Defined.

(** C9 does not hold as the specification states it: after a rejected
    entity was added twice, [removeById] of its identity returns [true] and
    the entity is still in the ordered sequence. *)
Lemma removeById_keeps_second_hidden_entry :
  itemsMap
    (Sample.guardedAfter [CallAdd Sample.hidden None; CallAdd Sample.hidden None])
    !! "7" = Some Sample.hidden
  ∧ passesValidator Sample.guardedTasks Sample.db Sample.hidden = false
  ∧ (store_removeById "7" None
       (Sample.guardedAfter
          [CallAdd Sample.hidden None; CallAdd Sample.hidden None])).1
    = Returned true
  ∧ Sample.hidden
    ∈ items (store_removeById "7" None
               (Sample.guardedAfter
                  [CallAdd Sample.hidden None; CallAdd Sample.hidden None])).2.
Proof.
  split; [reflexivity|]. split; [reflexivity|]. split; [reflexivity|].
  change (Sample.hidden ∈ [Sample.hidden]). by left.
Qed.

Lemma removeById_ignores_access_witness :
  itemsMap
    (Sample.guardedAfter [CallAdd Sample.hidden None; CallAdd Sample.shown None])
    !! "7" = Some Sample.hidden
  ∧ passesValidator Sample.guardedTasks Sample.db Sample.hidden = false
  ∧ findById Sample.guardedTasks Sample.db
      (Sample.guardedAfter [CallAdd Sample.hidden None; CallAdd Sample.shown None])
      "7" = None
  ∧ (store_removeById "7" None
       (Sample.guardedAfter
          [CallAdd Sample.hidden None; CallAdd Sample.shown None])).1
    = Returned true
  ∧ (Sample.hidden
     ∉ items (store_removeById "7" None
                (Sample.guardedAfter
                   [CallAdd Sample.hidden None; CallAdd Sample.shown None])).2).
Proof.
  split; [reflexivity|]. split; [reflexivity|].
  destruct (removeById_ignores_access Sample.guardedTasks Sample.db
              Sample.itemsIndex Sample.heap
              [CallAdd Sample.hidden None; CallAdd Sample.shown None]
              "7" Sample.hidden None eq_refl eq_refl)
    as (Hnull & Htrue & _ & _ & _ & _ & _ & Hgone & _).
  split; [exact Hnull|]. split; [exact Htrue|].
  apply Hgone. change (NoDup [Sample.hidden; Sample.shown]).
  apply NoDup_cons. split.
  + intros Hin%list_elem_of_singleton. discriminate.
  + apply NoDup_singleton.
Defined.

(** C6, the code at the failing input: on a new store with no validator
    nothing has the identity ["constructor"], yet [findById] of it is not
    null: it returns the member the identity map inherits from
    [Object.prototype], and [assertFindById] returns that member instead of
    throwing NotFound. *)
Theorem findById_returns_inherited_member :
  itemsMap emptyStore !! "constructor" = None
  ∧ items emptyStore = []
  ∧ store_findById Sample.tasks Sample.db "constructor" emptyStore
    = (Returned (Some (Inherited "constructor")), emptyStore)
  ∧ store_assertFindById Sample.tasks Sample.db "constructor" None emptyStore
    = (Returned (Inherited "constructor"), emptyStore).
Proof. split_and!; reflexivity. Qed.

(** C7 does not hold as the specification states it: after two [add] calls with one
    identity the sequence carries that identity twice; after a [removeById]
    of it the sequence still carries it and the map no longer does. *)
Lemma storeInvariant_broken_by_duplicate_add :
  forallb isMutation
    [CallAdd Sample.a None; CallAdd Sample.a' None; CallRemoveById "a" None]
  = true
  ∧ ¬ storeInvariant Sample.tasks
        (Sample.after [CallAdd Sample.a None; CallAdd Sample.a' None])
  ∧ ¬ storeInvariant Sample.tasks
        (Sample.after [CallAdd Sample.a None; CallAdd Sample.a' None;
                       CallRemoveById "a" None]).
Proof.
  split; [reflexivity|]. split.
  - intros [_ Hnd].
    change (NoDup ["a"; "a"]) in Hnd.
    apply NoDup_cons in Hnd as [Hnotin _]. apply Hnotin. by left.
  - intros [Hdom _].
    assert ("a" ∈ dom (itemsMap (Sample.after
              [CallAdd Sample.a None; CallAdd Sample.a' None;
               CallRemoveById "a" None]))) as Hin.
    { rewrite Hdom. apply elem_of_list_to_set.
      change ("a" ∈ ["a"]). by left. }
    apply elem_of_dom in Hin as [entity Hin]. vm_compute in Hin. discriminate.
Qed.

Lemma storeInvariant_fresh_adds_witness :
  addsFresh Sample.tasks Sample.db Sample.itemsIndex Sample.heap emptyStore
    [CallAdd Sample.a None; CallAdd Sample.b None; CallRemoveById "a" None;
     CallAdd Sample.a' None; CallFindByUniqueIndex "group" (VStr "x")] = true
  ∧ storeInvariant Sample.tasks
      (Sample.after
         [CallAdd Sample.a None; CallAdd Sample.b None; CallRemoveById "a" None;
          CallAdd Sample.a' None; CallFindByUniqueIndex "group" (VStr "x")]).
Proof.
  split; [reflexivity|].
  apply (storeInvariant_fresh_adds Sample.tasks Sample.db Sample.itemsIndex
           Sample.heap).
  reflexivity.
Defined.

(** C8 does not hold as the specification states it: after [destroy] the entity that was in
    the store is still in the sequence and in the map, and its disposer has
    not run. *)
Lemma destroy_leaves_entity :
  (Sample.a ∉ disposed (store_destroy (Sample.after [CallAdd Sample.a None])).2)
  ∧ Sample.a ∈ items (store_destroy (Sample.after [CallAdd Sample.a None])).2
  ∧ itemsMap (store_destroy (Sample.after [CallAdd Sample.a None])).2 !! "a"
    = Some Sample.a.
Proof.
  split_and!.
  - change (Sample.a ∉ []). apply not_elem_of_nil.
  - change (Sample.a ∈ [Sample.a]). by left.
  - reflexivity.
Qed.

Lemma query_all_sorted_filter_witness :
  orders (comparatorAt Mail.heap 0)
  ∧ predicateAt Mail.heap 0 Sample.hidden = true
  ∧ passesValidator Sample.guardedTasks Sample.db Sample.hidden = false
  ∧ ∃ view,
      (store_query (Some (FilterFunction 0)) (Some (SortFunction 0))
         (performAll Sample.guardedTasks Sample.db Sample.itemsIndex Mail.heap
            emptyStore [CallAdd Sample.hidden None; CallAdd Sample.shown None])).1
      = Returned view
      ∧ query_all Sample.guardedTasks Sample.db Mail.heap view
          (performAll Sample.guardedTasks Sample.db Sample.itemsIndex Mail.heap
             (store_query (Some (FilterFunction 0)) (Some (SortFunction 0))
                (performAll Sample.guardedTasks Sample.db Sample.itemsIndex
                   Mail.heap emptyStore
                   [CallAdd Sample.hidden None; CallAdd Sample.shown None])).2
             [CallAdd Sample.a None; CallAdd Mail.other None])
        = [Mail.other; Sample.shown]
      ∧ StronglySorted (precedes (comparatorAt Mail.heap 0))
          (query_all Sample.guardedTasks Sample.db Mail.heap view
             (performAll Sample.guardedTasks Sample.db Sample.itemsIndex
                Mail.heap
                (store_query (Some (FilterFunction 0)) (Some (SortFunction 0))
                   (performAll Sample.guardedTasks Sample.db Sample.itemsIndex
                      Mail.heap emptyStore
                      [CallAdd Sample.hidden None; CallAdd Sample.shown None])).2
                [CallAdd Sample.a None; CallAdd Mail.other None])).
Proof.
  assert (orders (comparatorAt Mail.heap 0)) as Horders.
  { split; unfold precedes; simpl; intros; lia. }
  split; [exact Horders|]. split; [reflexivity|]. split; [reflexivity|].
  destruct (query_all_sorted_filter Sample.guardedTasks Sample.db
              Sample.itemsIndex Mail.heap
              [CallAdd Sample.hidden None; CallAdd Sample.shown None] 0 0
              [CallAdd Sample.a None; CallAdd Mail.other None])
    as (view & Hview & Hall & _ & Hsorted).
  exists view. split; [exact Hview|]. split.
  - refine (eq_trans Hall _). reflexivity.
  - exact (Hsorted Horders).
Defined.

Lemma query_same_instance_witness :
  args_equal (Some Sample.groupThenId, None) (Some Sample.idThenGroup, None)
  = true
  ∧ ∃ view,
      (store_query (Some Sample.groupThenId) None
         (Sample.after [CallAdd Sample.a None])).1 = Returned view
      ∧ (store_query (Some Sample.idThenGroup) None
           (performAll Sample.tasks Sample.db Sample.itemsIndex Sample.heap
              (store_query (Some Sample.groupThenId) None
                 (Sample.after [CallAdd Sample.a None])).2
              [CallAdd Sample.b None; CallQuery (Some (FilterFunction 0)) None;
               CallRemoveById "a" None])).1 = Returned view.
Proof.
  split; [reflexivity|].
  apply (query_same_instance Sample.tasks Sample.db Sample.itemsIndex
           Sample.heap).
  reflexivity.
Defined.

Lemma findByUniqueIndex_by_match_count_witness :
  (Sample.itemsIndex "email"
     (store_getKeyIndex "email"
        (Sample.guardedAfter [CallAdd Sample.hidden None; CallAdd Sample.shown None])).2
     (VStr "k@x.io") = [Sample.hidden; Sample.shown]
   ∧ (store_findByUniqueIndex Sample.guardedTasks Sample.db Sample.itemsIndex
        "email" (VStr "k@x.io")
        (Sample.guardedAfter
           [CallAdd Sample.hidden None; CallAdd Sample.shown None])).1
     = Returned None
   ∧ warnings
       (store_findByUniqueIndex Sample.guardedTasks Sample.db Sample.itemsIndex
          "email" (VStr "k@x.io")
          (Sample.guardedAfter
             [CallAdd Sample.hidden None; CallAdd Sample.shown None])).2
     = ["Store has multiple items for unique index value email:k@x.io."])
  ∧ (Sample.itemsIndex "id"
       (store_getKeyIndex "id"
          (Sample.guardedAfter
             [CallAdd Sample.hidden None; CallAdd Sample.shown None])).2
       (VNum 8) = [Sample.shown]
     ∧ (store_findByUniqueIndex Sample.guardedTasks Sample.db Sample.itemsIndex
          "id" (VNum 8)
          (Sample.guardedAfter
             [CallAdd Sample.hidden None; CallAdd Sample.shown None])).1
       = Returned (Some Sample.shown))
  ∧ (Sample.itemsIndex "id"
       (store_getKeyIndex "id"
          (Sample.guardedAfter
             [CallAdd Sample.hidden None; CallAdd Sample.shown None])).2
       (VNum 9) = []
     ∧ (store_findByUniqueIndex Sample.guardedTasks Sample.db Sample.itemsIndex
          "id" (VNum 9)
          (Sample.guardedAfter
             [CallAdd Sample.hidden None; CallAdd Sample.shown None])).1
       = Returned None).
Proof.
  pose proof (findByUniqueIndex_by_match_count Sample.guardedTasks Sample.db
                Sample.itemsIndex
                (Sample.guardedAfter
                   [CallAdd Sample.hidden None; CallAdd Sample.shown None]))
    as Hcases.
  split; [|split].
  - destruct (Hcases "email" (VStr "k@x.io")) as (_ & _ & _ & Hmany & _).
    destruct (Hmany Sample.hidden Sample.shown [] eq_refl) as [Hout Hwarn].
    split; [reflexivity|]. split; [exact Hout|exact Hwarn].
  - destruct (Hcases "id" (VNum 8)) as (_ & _ & Hone & _).
    split; [reflexivity|]. exact (f_equal fst (Hone Sample.shown eq_refl)).
  - destruct (Hcases "id" (VNum 9)) as (_ & Hnone & _).
    split; [reflexivity|]. exact (f_equal fst (Hnone eq_refl)).
Defined.

Lemma findByUniqueIndex_checks_first_only_witness :
  Sample.itemsIndex "email"
    (store_getKeyIndex "email"
       (Sample.guardedAfter [CallAdd Sample.hidden None; CallAdd Sample.shown None])).2
    (VStr "k@x.io") = Sample.hidden :: [Sample.shown]
  ∧ isAccessible Sample.guardedTasks Sample.db Sample.hidden = false
  ∧ isAccessible Sample.guardedTasks Sample.db Sample.shown = true
  ∧ (store_findByUniqueIndex Sample.guardedTasks Sample.db Sample.itemsIndex
       "email" (VStr "k@x.io")
       (Sample.guardedAfter
          [CallAdd Sample.hidden None; CallAdd Sample.shown None])).1
    = Returned None.
Proof.
  split; [reflexivity|]. split; [reflexivity|]. split; [reflexivity|].
  apply (findByUniqueIndex_checks_first_only Sample.guardedTasks Sample.db
           Sample.itemsIndex _ "email" (VStr "k@x.io") Sample.hidden
           [Sample.shown]); [reflexivity|discriminate|reflexivity].
Defined.

(** * Further properties of the store *)

(** ** Lists *)

Lemma removeFirst_app_fresh entity (l : list Entity) :
  entity ∉ l → removeFirst entity (l ++ [entity]) = l.
Proof.
  unfold removeFirst. induction l as [|x l IH]; simpl; intros Hnotin.
  - by rewrite bool_decide_eq_true_2.
  - apply not_elem_of_cons in Hnotin as [Hne Hnotin].
    rewrite bool_decide_eq_false_2 by done.
    specialize (IH Hnotin).
    destruct (array_remove entity (l ++ [entity])) as [found rest]; simpl in *.
    by rewrite IH.
Qed.

Lemma removeFirst_twice_added entity (l : list Entity) :
  entity ∈ removeFirst entity (l ++ [entity; entity]).
Proof.
  unfold removeFirst. induction l as [|x l IH]; simpl.
  - rewrite bool_decide_eq_true_2 by done. by left.
  - case_bool_decide as Hx; simpl.
    + apply elem_of_app. right. by left.
    + destruct (array_remove entity (l ++ [entity; entity])) as [found rest];
        simpl in *. by right.
Qed.

Lemma getProperty_missing fields key :
  hasProperty fields key = false → getProperty fields key = VUndefined.
Proof.
  unfold hasProperty. rewrite bool_decide_eq_false.
  induction fields as [|[k v] fields IH]; simpl; [done|].
  intros Hnotin. apply not_elem_of_cons in Hnotin as [Hne Hnotin].
  rewrite bool_decide_eq_false_2 by done. by apply IH.
Qed.

(** Sorting a list that is already in order leaves it as it is. *)
Lemma sortWith_of_sorted cmp l :
  StronglySorted (precedes cmp) l → sortWith cmp l = l.
Proof.
  induction l as [|x l IH]; simpl; [done|].
  intros [Hx Hl]%StronglySorted_cons. rewrite (IH Hl).
  destruct l as [|y l]; simpl; [done|].
  apply Forall_cons in Hx as [Hxy _]. unfold precedes in Hxy.
  by rewrite (proj2 (Z.leb_le _ _) Hxy).
Qed.

(** Entities with one sort key keep their relative order. *)
Lemma insertBy_stable (iteratee : Entity → Z) k x l :
  filter (λ entity, iteratee entity = k)
         (insertBy (λ a b, (iteratee a - iteratee b)%Z) x l)
  = filter (λ entity, iteratee entity = k) (x :: l).
Proof.
  induction l as [|y l IH]; simpl; [done|].
  destruct (iteratee x - iteratee y <=? 0)%Z eqn:Hxy; [done|].
  apply Z.leb_gt in Hxy. rewrite filter_cons, IH, !filter_cons.
  destruct (decide (iteratee y = k)), (decide (iteratee x = k)); try done.
  lia.
Qed.

Lemma sortBy_stable (iteratee : Entity → Z) k l :
  filter (λ entity, iteratee entity = k) (sortBy l iteratee)
  = filter (λ entity, iteratee entity = k) l.
Proof.
  unfold sortBy. induction l as [|x l IH]; simpl; [done|].
  by rewrite insertBy_stable, !filter_cons, IH.
Qed.

Lemma sortBy_sorted (iteratee : Entity → Z) l :
  StronglySorted (λ a b, (iteratee a <= iteratee b)%Z) (sortBy l iteratee).
Proof.
  assert (StronglySorted (precedes (λ a b, (iteratee a - iteratee b)%Z))
            (sortBy l iteratee)) as Hsorted.
  { apply sortWith_sorted. split; unfold precedes; intros; lia. }
  induction Hsorted as [|x rest Hrest IH Hx]; constructor; [done|].
  eapply Forall_impl; [exact Hx|]. unfold precedes. intros; lia.
Qed.

Section MoreProperties.

Variable definition : EntityDefinition.
Variable db : ClientDb.
Variable queryIndex_find : string → StoreState → Value → list Entity.
Variable heap : FunctionHeap.

Local Abbreviation step := (perform definition db queryIndex_find heap).
Local Abbreviation run := (performAll definition db queryIndex_find heap).

(** ** The default sort *)

(** X1: [sortItems] rearranges its input and sorting twice is sorting
    once; without a default sort it returns the input as it is, and with one
    the result ascends in the sort key and entities with equal keys keep
    their relative order. *)
Theorem sortItems_orders l :
  sortItems definition l ≡ₚ l
  ∧ sortItems definition (sortItems definition l) = sortItems definition l
  ∧ match defaultSort (config definition) with
    | None => sortItems definition l = l
    | Some iteratee =>
        StronglySorted (λ a b, (iteratee a <= iteratee b)%Z)
          (sortItems definition l)
        ∧ ∀ k, filter (λ entity, iteratee entity = k) (sortItems definition l)
               = filter (λ entity, iteratee entity = k) l
    end.
Proof.
  unfold sortItems.
  destruct (defaultSort (config definition)) as [iteratee|]; [|done].
  split_and!.
  - apply sortWith_Permutation.
  - apply sortWith_of_sorted, sortWith_sorted.
    split; unfold precedes; intros; lia.
  - apply sortBy_sorted.
  - intros k. apply sortBy_stable.
Qed.

(** ** The event log as a ledger *)

Lemma ledger_perform st call :
  mapLinked definition st →
  disposed st = removedOf (emitted st) →
  addedOf (emitted st) ≡ₚ items st ++ disposed st →
  items st `sublist_of` addedOf (emitted st) →
  disposed (step st call) = removedOf (emitted (step st call))
  ∧ addedOf (emitted (step st call))
    ≡ₚ items (step st call) ++ disposed (step st call)
  ∧ items (step st call) `sublist_of` addedOf (emitted (step st call)).
Proof.
  intros Hlinked Hdisposed Hadded Horder.
  destruct (isMutation call) eqn:Hmut.
  - destruct call; try discriminate; unfold perform.
    + rewrite store_add_run; simpl. unfold addedOf, removedOf in *.
      rewrite !omap_app; simpl. rewrite app_nil_r. split_and!; [done|..].
      * rewrite Hadded, <- !app_assoc. apply Permutation_app_head.
        apply Permutation_app_comm.
      * by apply sublist_app.
    + destruct (itemsMap st !! id) as [entity|] eqn:Hid.
      * rewrite (store_removeById_hit _ _ _ _ Hid); simpl.
        destruct (Hlinked _ _ Hid) as [Hin _].
        unfold addedOf, removedOf in *.
        rewrite !omap_app; simpl. rewrite app_nil_r. split_and!.
        -- by rewrite Hdisposed.
        -- rewrite Hadded, (removeFirst_Permutation entity (items st) Hin) at 1.
           rewrite (Permutation_app_comm (disposed st) [entity]).
           by rewrite app_assoc, (Permutation_app_comm _ [entity]).
        -- etrans; [apply removeFirst_sublist|done].
      * by rewrite (store_removeById_miss _ _ _ Hid).
  - destruct (perform_lookup_frame definition db queryIndex_find heap
                st call Hmut) as (Hi & _ & He & Hd).
    by rewrite Hi, He, Hd.
Qed.

Lemma ledger_performAll st calls :
  mapLinked definition st →
  disposed st = removedOf (emitted st) →
  addedOf (emitted st) ≡ₚ items st ++ disposed st →
  items st `sublist_of` addedOf (emitted st) →
  disposed (run st calls) = removedOf (emitted (run st calls))
  ∧ addedOf (emitted (run st calls))
    ≡ₚ items (run st calls) ++ disposed (run st calls)
  ∧ items (run st calls) `sublist_of` addedOf (emitted (run st calls)).
Proof.
  revert st. induction calls as [|call calls IH]; intros st; simpl; [done|].
  intros Hlinked Hdisposed Hadded Horder.
  destruct (ledger_perform st call) as (? & ? & ?); try done.
  apply IH; try done. by apply mapLinked_perform.
Qed.

(** X2: after any calls on a new store, the disposers that ran are those
    of the entities of the [itemRemoved] events, in that order, and the
    entities of the [itemAdded] events are exactly those still in the
    sequence together with those disposed of, counted with repetition: no
    entity is lost or made up. *)
Theorem entities_conserved calls :
  disposed (run emptyStore calls) = removedOf (emitted (run emptyStore calls))
  ∧ addedOf (emitted (run emptyStore calls))
    ≡ₚ items (run emptyStore calls) ++ disposed (run emptyStore calls)
  ∧ length (items (run emptyStore calls))
    + length (removedOf (emitted (run emptyStore calls)))
    = length (addedOf (emitted (run emptyStore calls))).
Proof.
  pose proof (mapLinked_empty definition) as Hlinked.
  destruct (ledger_performAll emptyStore calls Hlinked)
    as (Hdisposed & Hadded & _); try done.
  split_and!; [done..|].
  by rewrite Hadded, length_app, Hdisposed.
Qed.

(** X3: after any calls on a new store, the sequence lists entities in
    the order they were added: it is the list of the added entities with
    some entries left out. *)
Theorem items_in_insertion_order calls :
  items (run emptyStore calls)
  `sublist_of` addedOf (emitted (run emptyStore calls)).
Proof.
  pose proof (mapLinked_empty definition) as Hlinked.
  by destruct (ledger_performAll emptyStore calls Hlinked) as (_ & _ & Horder).
Qed.

(** ** Calls that do not touch an entity *)

(** X4: calls other than [add] and [removeById] never change the
    sequence, the map, the event log or the disposers that ran, whatever
    they return or throw. *)
Theorem lookups_leave_entities st calls :
  forallb (λ call, negb (isMutation call)) calls = true →
  sameEntities st (run st calls).
Proof.
  revert st. induction calls as [|call calls IH]; intros st; simpl; [done|].
  intros [Hcall Hrest]%andb_true_iff. apply negb_true_iff in Hcall.
  destruct (perform_lookup_frame definition db queryIndex_find heap
              st call Hcall) as (Hi & Hm & He & Hd).
  destruct (IH (step st call) Hrest) as (Hi' & Hm' & He' & Hd').
  unfold sameEntities. by rewrite Hi', Hm', He', Hd'.
Qed.

Lemma findById_ext st st' id :
  itemsMap st' !! id = itemsMap st !! id →
  findById definition db st' id = findById definition db st id.
Proof. intros Hslot. unfold findById, itemsMap_get. by rewrite Hslot. Qed.

Lemma slot_frame_perform st call id :
  targets definition id call = false →
  itemsMap (step st call) !! id = itemsMap st !! id.
Proof.
  intros Hother. destruct (isMutation call) eqn:Hmut.
  - destruct call; try discriminate; unfold perform; simpl in Hother;
      apply bool_decide_eq_false in Hother.
    + rewrite store_add_run; simpl. by rewrite lookup_insert_ne.
    + destruct (itemsMap st !! id0) as [other|] eqn:Hid.
      * rewrite (store_removeById_hit _ _ _ _ Hid); simpl.
        by rewrite lookup_delete_ne.
      * by rewrite (store_removeById_miss _ _ _ Hid).
  - destruct (perform_lookup_frame definition db queryIndex_find heap
                st call Hmut) as (_ & Hm & _).
    by rewrite Hm.
Qed.

(** X5: what [findById] returns for an identity changes only through an
    [add] of an entity with that identity or a [removeById] of it: any
    sequence of other calls leaves it as it was. *)
Theorem findById_frame st calls id :
  forallb (λ call, negb (targets definition id call)) calls = true →
  findById definition db (run st calls) id = findById definition db st id.
Proof.
  revert st. induction calls as [|call calls IH]; intros st; simpl; [done|].
  intros [Hcall Hrest]%andb_true_iff. apply negb_true_iff in Hcall.
  rewrite (IH _ Hrest). apply findById_ext. by apply slot_frame_perform.
Qed.

(** ** Removal and addition composed *)

(** X6: removing an identity twice: whatever the first [removeById] did,
    a second one of the same identity changes nothing, so it emits no event
    and runs no disposer; it returns [false], unless the identity names a
    member of [Object.prototype], in which case it throws the [TypeError]
    of the missing [cleanup]. *)
Theorem removeById_twice st id source source' :
  store_removeById id source' (store_removeById id source st).2
  = (if inherited id then Thrown (TypeError "clean") else Returned false,
     (store_removeById id source st).2).
Proof.
  change (if inherited id then _ else _) with (removeById_unowned id).
  destruct (itemsMap st !! id) as [entity|] eqn:Hid.
  - rewrite (store_removeById_hit _ _ _ _ Hid); simpl.
    apply store_removeById_miss; simpl. apply lookup_delete_eq.
  - rewrite (store_removeById_miss _ _ _ Hid). by apply store_removeById_miss.
Qed.

(** X7: on a store whose adds all supplied free identities, adding an
    entity under a free identity and then removing that identity returns
    [true] and restores the sequence and the map exactly; the event log has
    gained the [itemAdded] and the [itemRemoved] of the entity and its
    disposer has run once. *)
Theorem add_removeById_round_trip calls entity source source' :
  addsFresh definition db queryIndex_find heap emptyStore calls = true →
  itemsMap (run emptyStore calls) !! getEntityId definition entity = None →
  let st := run emptyStore calls in
  let out := store_removeById (getEntityId definition entity) source'
               (store_add definition entity source st).2 in
  out.1 = Returned true
  ∧ items out.2 = items st
  ∧ itemsMap out.2 = itemsMap st
  ∧ emitted out.2
    = emitted st ++ [itemAdded entity (default "user" source);
                     itemRemoved entity (default "user" source')]
  ∧ disposed out.2 = disposed st ++ [entity].
Proof.
  intros Hfresh Hfree st out.
  destruct (links_performAll definition db queryIndex_find heap
              emptyStore calls Hfresh) as (_ & Hseq & _).
  { apply mapLinked_empty. }
  { by intros other Hin%elem_of_nil. }
  { apply NoDup_nil_2. }
  assert (entity ∉ items st) as Hnotin.
  { intros Hin. specialize (Hseq _ Hin). subst st. congruence. }
  subst out. rewrite store_add_run.
  erewrite store_removeById_hit; [|simpl; apply lookup_insert_eq]. simpl.
  split_and!.
  - rewrite array_remove_found; [done|]. apply elem_of_app. right. by left.
  - by apply removeFirst_app_fresh.
  - by apply delete_insert_id.
  - by rewrite <- app_assoc.
  - done.
Qed.

(** X8: adding the same entity twice and removing its identity once
    leaves an entry that the store can no longer reach by identity: the
    entity is still in the sequence, its identity is not in the map, and
    [findById] and a further [removeById] of the identity behave as on a
    store that never held it: they return null and [false], unless the
    identity names a member of [Object.prototype], which [findById] then
    hands out as on a new store and over which [removeById] throws. *)
Theorem add_twice_leaves_orphan st entity source1 source2 source3 :
  let twice := (store_add definition entity source2
                  (store_add definition entity source1 st).2).2 in
  let out := store_removeById (getEntityId definition entity) source3 twice in
  out.1 = Returned true
  ∧ entity ∈ items out.2
  ∧ itemsMap out.2 !! getEntityId definition entity = None
  ∧ findById definition db out.2 (getEntityId definition entity)
    = (if inherited (getEntityId definition entity)
       then findById definition db emptyStore (getEntityId definition entity)
       else None)
  ∧ store_removeById (getEntityId definition entity) source3 out.2
    = (if inherited (getEntityId definition entity)
       then Thrown (TypeError "clean") else Returned false, out.2).
Proof.
  intros twice out. subst out twice. rewrite !store_add_run; simpl.
  erewrite store_removeById_hit; [|simpl; apply lookup_insert_eq]. simpl.
  rewrite <- !app_assoc. simpl. split_and!.
  - rewrite array_remove_found; [done|].
    apply elem_of_app. right. by left.
  - apply removeFirst_twice_added.
  - apply lookup_delete_eq.
  - rewrite findById_unmapped by (simpl; apply lookup_delete_eq).
    rewrite (findById_unmapped _ _ emptyStore) by (simpl; apply lookup_empty).
    unfold findById_unowned.
    by destruct (inherited (getEntityId definition entity)).
  - change (if inherited _ then _ else _)
      with (removeById_unowned (getEntityId definition entity)).
    apply store_removeById_miss. simpl. apply lookup_delete_eq.
Qed.

(** ** Lookup by identity and the root source *)

(** X9: after any calls on a new store, whatever [findById] returns for
    an identity is either an entry of the access-filtered root source
    (hence of the sequence) whose own identity is the one asked for, or,
    when the identity has no slot in the map and names a member of
    [Object.prototype], that inherited member. *)
Theorem findById_in_root_source calls id :
  match findById definition db (run emptyStore calls) id with
  | Some (OwnEntity entity) =>
      entity ∈ getRootSource definition db (run emptyStore calls)
      ∧ entity ∈ items (run emptyStore calls)
      ∧ getEntityId definition entity = id
  | Some (Inherited key) =>
      key = id ∧ inherited id = true
      ∧ itemsMap (run emptyStore calls) !! id = None
  | None => True
  end.
Proof.
  destruct (itemsMap (run emptyStore calls) !! id) as [mapped|] eqn:Hid.
  - rewrite (findById_mapped _ _ _ _ _ Hid).
    destruct (isAccessible definition db mapped) eqn:Hacc; [|done].
    destruct (mapLinked_performAll definition db queryIndex_find heap
                emptyStore calls (mapLinked_empty definition) _ _ Hid)
      as [Hin Hkey].
    split_and!; [|done..].
    rewrite getRootSource_filter. by apply list_elem_of_filter.
  - rewrite (findById_unmapped _ _ _ _ Hid). unfold findById_unowned.
    destruct (inherited id) eqn:Hinherited; [|done].
    destruct (accessValidator (config definition)) as [validator|]; [|done].
    by destruct (validator (Inherited id) db).
Qed.

(** X10: on a store whose adds all supplied free identities, the entities
    [findById] finds are exactly the entries of the root source, each under
    its own identity; and it hands out a member of [Object.prototype] only
    for an identity that no entry of the sequence carries. *)
Theorem findById_iff_root_source calls id :
  addsFresh definition db queryIndex_find heap emptyStore calls = true →
  (∀ entity,
     findById definition db (run emptyStore calls) id = Some (OwnEntity entity)
     ↔ entity ∈ getRootSource definition db (run emptyStore calls)
       ∧ getEntityId definition entity = id)
  ∧ (∀ key,
       findById definition db (run emptyStore calls) id = Some (Inherited key) →
       key = id ∧ inherited id = true
       ∧ ∀ entity, entity ∈ items (run emptyStore calls) →
                   getEntityId definition entity ≠ id).
Proof.
  intros Hfresh.
  destruct (links_performAll definition db queryIndex_find heap
              emptyStore calls Hfresh) as (Hmap & Hseq & _).
  { apply mapLinked_empty. }
  { by intros other Hin%elem_of_nil. }
  { apply NoDup_nil_2. }
  split.
  - intros entity. split.
    + intros Hfound.
      destruct (itemsMap (run emptyStore calls) !! id) as [mapped|] eqn:Hid.
      * rewrite (findById_mapped _ _ _ _ _ Hid) in Hfound.
        destruct (isAccessible definition db mapped) eqn:Hacc; [|done].
        injection Hfound as ->. destruct (Hmap _ _ Hid) as [Hin Hkey].
        split; [|done]. rewrite getRootSource_filter.
        by apply list_elem_of_filter.
      * rewrite (findById_unmapped _ _ _ _ Hid) in Hfound.
        unfold findById_unowned in Hfound.
        destruct (inherited id); [|done].
        destruct (accessValidator (config definition)) as [validator|];
          [|done].
        by destruct (validator (Inherited id) db).
    + rewrite getRootSource_filter.
      intros [[Hacc Hin]%list_elem_of_filter <-].
      rewrite (findById_mapped _ _ _ _ entity); [by rewrite Hacc|].
      by apply Hseq.
  - intros key Hfound.
    destruct (itemsMap (run emptyStore calls) !! id) as [mapped|] eqn:Hid.
    + rewrite (findById_mapped _ _ _ _ _ Hid) in Hfound.
      by destruct (isAccessible definition db mapped).
    + rewrite (findById_unmapped _ _ _ _ Hid) in Hfound.
      unfold findById_unowned in Hfound.
      destruct (inherited id) eqn:Hinherited; [|done].
      assert (key = id) as ->.
      { destruct (accessValidator (config definition)) as [validator|];
          [destruct (validator (Inherited id) db)|]; congruence. }
      split_and!; [done..|].
      intros entity Hin <-. specialize (Hseq _ Hin). congruence.
Qed.

(** ** The identity of an entity *)

(** X11: [add] accepts an entity that lacks the key field: its identity
    is the text ["undefined"], under which it is stored. *)
Theorem add_without_key_field st entity source :
  hasProperty (entity_fields entity) (keyField (config definition)) = false →
  getEntityId definition entity = "undefined"
  ∧ (store_add definition entity source st).1 = Returned entity
  ∧ itemsMap (store_add definition entity source st).2 !! "undefined"
    = Some entity.
Proof.
  intros Hmissing.
  assert (getEntityId definition entity = "undefined") as Hid.
  { unfold getEntityId, entity_get. by rewrite getProperty_missing. }
  split_and!; [done..|].
  rewrite store_add_run; simpl. rewrite Hid. apply lookup_insert_eq.
Qed.

(** X12: identities are string coercions of key values.  Two entities
    whose keys are safe integers have one identity exactly when the
    integers are equal, and an entity keyed by a safe integer has the
    identity of an entity keyed by the text of its decimal numeral. *)
Theorem identity_by_coercion e1 e2 n1 :
  isSafeInteger n1 →
  keyValue definition e1 = VNum n1 →
  (∀ n2, isSafeInteger n2 → keyValue definition e2 = VNum n2 →
     (getEntityId definition e1 = getEntityId definition e2 ↔ n1 = n2))
  ∧ (keyValue definition e2 = VStr (pretty n1) →
     getEntityId definition e1 = getEntityId definition e2).
Proof.
  unfold keyValue, getEntityId. intros _ ->. split.
  - intros n2 _ ->. simpl. split; [apply (inj pretty)|by intros ->].
  - by intros ->.
Qed.

(** ** Field indexes *)

Lemma getKeyIndex_keeps_index key index key' :
  keeps (λ st, queryIndexes st !! key = Some index) (store_getKeyIndex key').
Proof.
  intros st Hkept. unfold_action.
  destruct (queryIndexes st !! key') eqn:Hother; simpl; [done|].
  rewrite lookup_insert_ne; [done|]. intros ->. congruence.
Qed.

Lemma index_kept_perform st call key index :
  queryIndexes st !! key = Some index →
  queryIndexes (step st call) !! key = Some index.
Proof.
  pose proof (getKeyIndex_keeps_index key index) as Hget.
  assert (∀ key' value, keeps (λ st, queryIndexes st !! key = Some index)
            (store_findByUniqueIndex definition db queryIndex_find key' value)).
  { intros key' value. unfold store_findByUniqueIndex, console_warn.
    keeps_cache. }
  destruct call; unfold perform;
    match goal with |- _ → queryIndexes (?m _).2 !! _ = _ =>
      cut (keeps (λ st, queryIndexes st !! key = Some index) m);
        [intros Hk; apply Hk|]
    end;
    unfold store_add, store_removeById, store_findById, store_assertFindById,
      store_find, store_findFirst, store_assertFindByUniqueIndex, store_query,
      store_sort, createOrReuseQuery, runInAction, events_emit,
      entity_cleanup_clean;
    keeps_cache.
Qed.

Lemma index_kept_performAll st calls key index :
  queryIndexes st !! key = Some index →
  queryIndexes (run st calls) !! key = Some index.
Proof.
  revert st. induction calls as [|call calls IH]; intros st; simpl; [done|].
  intros Hkept. by apply IH, index_kept_perform.
Qed.

Lemma store_getKeyIndex_registers key st :
  ∃ index, (store_getKeyIndex key st).1 = Returned index
           ∧ queryIndexes (store_getKeyIndex key st).2 !! key = Some index.
Proof.
  unfold_action. destruct (queryIndexes st !! key) as [existing|] eqn:Hkey;
    simpl; [by eauto|].
  eexists. split; [done|]. apply lookup_insert_eq.
Qed.

Lemma store_getKeyIndex_existing key st index :
  queryIndexes st !! key = Some index →
  store_getKeyIndex key st = (Returned index, st).
Proof. intros Hkey. unfold_action. by rewrite Hkey. Qed.

(** X13: one index per field: [getKeyIndex] returns an index object for
    the field and registers it in the index map, where it stays through any
    further calls; a second [getKeyIndex] of the field then returns that
    same object and changes nothing, so none is made twice. *)
Theorem getKeyIndex_once st key between :
  ∃ index,
    (store_getKeyIndex key st).1 = Returned index
    ∧ queryIndexes (store_getKeyIndex key st).2 !! key = Some index
    ∧ queryIndexes (run (store_getKeyIndex key st).2 between) !! key
      = Some index
    ∧ store_getKeyIndex key (run (store_getKeyIndex key st).2 between)
      = (Returned index, run (store_getKeyIndex key st).2 between).
Proof.
  destruct (store_getKeyIndex_registers key st) as (index & Hout & Hkey).
  exists index. split_and!; [done..| |].
  - by apply index_kept_performAll.
  - by apply store_getKeyIndex_existing, index_kept_performAll.
Qed.

(** X14: a unique-index lookup makes the field's index as a side effect,
    whether it finds an entity or not, and touches neither the sequence, the
    map, the event log, the disposers nor the query memo; the asserting
    variant leaves exactly the state the plain lookup leaves, also when it
    throws. *)
Theorem uniqueIndex_lookup_registers st key value :
  let found :=
    store_findByUniqueIndex definition db queryIndex_find key value st in
  let asserted :=
    store_assertFindByUniqueIndex definition db queryIndex_find key value st in
  asserted.2 = found.2
  ∧ is_Some (queryIndexes found.2 !! key)
  ∧ sameEntities st found.2
  ∧ queryCache found.2 = queryCache st.
Proof.
  intros found asserted. split_and!.
  - subst asserted found. unfold store_assertFindByUniqueIndex.
    unfold mbind at 1. unfold Action_bind.
    destruct (store_findByUniqueIndex _ _ _ _ _ _) as [[[entity|]|e] after];
      done.
  - subst found. rewrite store_findByUniqueIndex_run.
    destruct (store_getKeyIndex_registers key st) as (index & _ & Hkey).
    destruct (queryIndex_find _ _ _) as [|first [|second rest]]; simpl; eauto.
  - apply readOnly_findByUniqueIndex.
  - subst found. rewrite store_findByUniqueIndex_run.
    assert (queryCache (store_getKeyIndex key st).2 = queryCache st) as Hcache.
    { unfold_action. by destruct (queryIndexes st !! key). }
    by destruct (queryIndex_find _ _ _) as [|first [|second rest]].
Qed.

(** X15: [destroy] does not empty the index map.  After it, [getKeyIndex]
    of a field that had an index returns that destroyed index and makes
    none, while for a field that had none it makes a live index in the
    destroyed store. *)
Theorem getKeyIndex_after_destroy st key :
  (∀ index, queryIndexes st !! key = Some index →
     store_getKeyIndex key (store_destroy st).2
     = (Returned (queryIndex_destroy index), (store_destroy st).2)
     ∧ index_destroyed (queryIndex_destroy index) = true)
  ∧ (queryIndexes st !! key = None →
     ∃ index, (store_getKeyIndex key (store_destroy st).2).1 = Returned index
              ∧ index_destroyed index = false
              ∧ eventsDestroyed (store_getKeyIndex key (store_destroy st).2).2
                = true).
Proof.
  split.
  - intros index Hkey. split; [|done].
    apply store_getKeyIndex_existing. simpl. by rewrite lookup_fmap, Hkey.
  - intros Hkey. unfold_action. simpl. rewrite lookup_fmap, Hkey. simpl.
    by eexists.
Qed.

(** ** Removal when the sequence lacks the entity *)

Lemma array_remove_missing entity (l : list Entity) :
  entity ∉ l → array_remove entity l = (false, l).
Proof.
  induction l as [|x l IH]; simpl; [done|].
  intros [Hne Hnotin]%not_elem_of_cons.
  rewrite bool_decide_eq_false_2 by done. by rewrite IH.
Qed.

(** X16: what [removeById] returns is whether the sequence held the
    entity, not whether anything was removed.  When the map holds an entity
    that the sequence (which callers can reach as [store.items]) no longer
    holds, [removeById] returns [false], yet it has run the disposer,
    deleted the map slot and emitted [itemRemoved]; the sequence is as it
    was. *)
Theorem removeById_false_after_effects st id entity source :
  itemsMap st !! id = Some entity →
  entity ∉ items st →
  let out := store_removeById id source st in
  out.1 = Returned false
  ∧ items out.2 = items st
  ∧ itemsMap out.2 = delete id (itemsMap st)
  ∧ disposed out.2 = disposed st ++ [entity]
  ∧ emitted out.2 = emitted st ++ [itemRemoved entity (default "user" source)].
Proof.
  intros Hid Hnotin out. subst out.
  rewrite (store_removeById_hit _ _ _ _ Hid). unfold removeFirst.
  by rewrite (array_remove_missing _ _ Hnotin).
Qed.

End MoreProperties.

(** * The further properties on sample stores *)

Lemma lookups_leave_entities_witness :
  sameEntities
    (Sample.guardedAfter [CallAdd Sample.hidden None; CallAdd Sample.shown None])
    (performAll Sample.guardedTasks Sample.db Sample.itemsIndex Sample.heap
       (Sample.guardedAfter
          [CallAdd Sample.hidden None; CallAdd Sample.shown None])
       [CallFindByUniqueIndex "email" (VStr "k@x.io");
        CallAssertFindById "nobody" None;
        CallFind (FilterFunction 1);
        CallSort (SortFunction 0);
        CallGetKeyIndex "group"]).
Proof.
  apply (lookups_leave_entities Sample.guardedTasks Sample.db Sample.itemsIndex
           Sample.heap).
  reflexivity.
Defined.

Lemma findById_frame_witness :
  findById Sample.tasks Sample.db
    (performAll Sample.tasks Sample.db Sample.itemsIndex Sample.heap
       (Sample.after [CallAdd Sample.a None])
       [CallAdd Sample.b None; CallRemoveById "b" None; CallAdd Sample.c None;
        CallFindById "a"; CallRemoveById "zz" None])
    "a"
  = findById Sample.tasks Sample.db (Sample.after [CallAdd Sample.a None]) "a".
Proof.
  apply (findById_frame Sample.tasks Sample.db Sample.itemsIndex Sample.heap).
  reflexivity.
Defined.

Lemma add_removeById_round_trip_witness :
  (store_removeById "c" (Some "sync")
     (store_add Sample.tasks Sample.c None
        (Sample.after [CallAdd Sample.a None; CallAdd Sample.b None])).2).1
  = Returned true
  ∧ items
      (store_removeById "c" (Some "sync")
         (store_add Sample.tasks Sample.c None
            (Sample.after [CallAdd Sample.a None; CallAdd Sample.b None])).2).2
    = items (Sample.after [CallAdd Sample.a None; CallAdd Sample.b None])
  ∧ itemsMap
      (store_removeById "c" (Some "sync")
         (store_add Sample.tasks Sample.c None
            (Sample.after [CallAdd Sample.a None; CallAdd Sample.b None])).2).2
    = itemsMap (Sample.after [CallAdd Sample.a None; CallAdd Sample.b None]).
Proof.
  destruct (add_removeById_round_trip Sample.tasks Sample.db Sample.itemsIndex
              Sample.heap [CallAdd Sample.a None; CallAdd Sample.b None]
              Sample.c None (Some "sync") eq_refl eq_refl)
    as (Htrue & Hitems & Hmap & _).
  split; [exact Htrue|]. split; [exact Hitems|exact Hmap].
Defined.

Lemma findById_iff_root_source_witness :
  addsFresh Sample.guardedTasks Sample.db Sample.itemsIndex Sample.heap
    emptyStore [CallAdd Sample.hidden None; CallAdd Sample.shown None] = true
  ∧ findById Sample.guardedTasks Sample.db
      (Sample.guardedAfter
         [CallAdd Sample.hidden None; CallAdd Sample.shown None])
      "8" = Some (OwnEntity Sample.shown)
  ∧ (findById Sample.guardedTasks Sample.db
       (Sample.guardedAfter
          [CallAdd Sample.hidden None; CallAdd Sample.shown None])
       "7" = Some (OwnEntity Sample.hidden)
     ↔ Sample.hidden
       ∈ getRootSource Sample.guardedTasks Sample.db
           (Sample.guardedAfter
              [CallAdd Sample.hidden None; CallAdd Sample.shown None])
       ∧ getEntityId Sample.guardedTasks Sample.hidden = "7").
Proof.
  split; [reflexivity|].
  destruct (findById_iff_root_source Sample.guardedTasks Sample.db
              Sample.itemsIndex Sample.heap
              [CallAdd Sample.hidden None; CallAdd Sample.shown None]
              "8" eq_refl) as [Hshown _].
  destruct (findById_iff_root_source Sample.guardedTasks Sample.db
              Sample.itemsIndex Sample.heap
              [CallAdd Sample.hidden None; CallAdd Sample.shown None]
              "7" eq_refl) as [Hhidden _].
  split; [|exact (Hhidden Sample.hidden)].
  apply (Hshown Sample.shown). split; [|reflexivity].
  change (Sample.shown ∈ [Sample.shown]). by left.
Defined.

Lemma add_without_key_field_witness :
  hasProperty (entity_fields Ranked.keyless) (keyField (config Ranked.tasks))
  = false
  ∧ getEntityId Ranked.tasks Ranked.keyless = "undefined"
  ∧ itemsMap (store_add Ranked.tasks Ranked.keyless None emptyStore).2
      !! "undefined" = Some Ranked.keyless.
Proof.
  split; [reflexivity|].
  destruct (add_without_key_field Ranked.tasks emptyStore Ranked.keyless None
              eq_refl) as (Hid & _ & Hslot).
  split; [exact Hid|exact Hslot].
Defined.

Lemma identity_by_coercion_witness :
  isSafeInteger 7
  ∧ isSafeInteger 9
  ∧ keyValue Ranked.tasks Ranked.low = VNum 7
  ∧ keyValue Ranked.tasks Ranked.tie = VNum 9
  ∧ keyValue Ranked.tasks Ranked.high = VStr "7"
  ∧ getEntityId Ranked.tasks Ranked.low ≠ getEntityId Ranked.tasks Ranked.tie
  ∧ getEntityId Ranked.tasks Ranked.low = getEntityId Ranked.tasks Ranked.high.
Proof.
  assert (isSafeInteger 7) as Hseven by (unfold isSafeInteger; simpl; lia).
  assert (isSafeInteger 9) as Hnine by (unfold isSafeInteger; simpl; lia).
  split; [exact Hseven|]. split; [exact Hnine|].
  split; [reflexivity|]. split; [reflexivity|]. split; [reflexivity|].
  split.
  - destruct (identity_by_coercion Ranked.tasks Ranked.low Ranked.tie 7
                Hseven eq_refl) as [Hnumbers _].
    intros Hsame. apply (Hnumbers 9%Z Hnine eq_refl) in Hsame. discriminate.
  - destruct (identity_by_coercion Ranked.tasks Ranked.low Ranked.high 7
                Hseven eq_refl) as [_ Htext].
    exact (Htext eq_refl).
Defined.

Lemma getKeyIndex_after_destroy_witness :
  (queryIndexes (Sample.after [CallGetKeyIndex "group"]) !! "group"
   = Some (createQueryFieldIndex 0 "group")
   ∧ store_getKeyIndex "group"
       (store_destroy (Sample.after [CallGetKeyIndex "group"])).2
     = (Returned (queryIndex_destroy (createQueryFieldIndex 0 "group")),
        (store_destroy (Sample.after [CallGetKeyIndex "group"])).2))
  ∧ (queryIndexes (Sample.after [CallGetKeyIndex "group"]) !! "id" = None
     ∧ ∃ index,
         (store_getKeyIndex "id"
            (store_destroy (Sample.after [CallGetKeyIndex "group"])).2).1
         = Returned index
         ∧ index_destroyed index = false).
Proof.
  split.
  - split; [reflexivity|].
    destruct (proj1 (getKeyIndex_after_destroy
                       (Sample.after [CallGetKeyIndex "group"]) "group")
                (createQueryFieldIndex 0 "group") eq_refl) as [Hsame _].
    exact Hsame.
  - split; [reflexivity|].
    destruct (proj2 (getKeyIndex_after_destroy
                       (Sample.after [CallGetKeyIndex "group"]) "id") eq_refl)
      as (index & Hout & Hlive & _).
    exists index. split; [exact Hout|exact Hlive].
Defined.

Lemma removeById_false_after_effects_witness :
  itemsMap (set_items (λ _, []) (Sample.after [CallAdd Sample.a None])) !! "a"
  = Some Sample.a
  ∧ (Sample.a ∉ items (set_items (λ _, []) (Sample.after [CallAdd Sample.a None])))
  ∧ (store_removeById "a" None
       (set_items (λ _, []) (Sample.after [CallAdd Sample.a None]))).1
    = Returned false
  ∧ emitted
      (store_removeById "a" None
         (set_items (λ _, []) (Sample.after [CallAdd Sample.a None]))).2
    = [itemAdded Sample.a "user"; itemRemoved Sample.a "user"].
Proof.
  assert (Sample.a
          ∉ items (set_items (λ _, []) (Sample.after [CallAdd Sample.a None])))
    as Hgone by apply not_elem_of_nil.
  split; [reflexivity|]. split; [exact Hgone|].
  destruct (removeById_false_after_effects
              (set_items (λ _, []) (Sample.after [CallAdd Sample.a None]))
              "a" Sample.a None eq_refl Hgone)
    as (Hfalse & _ & _ & _ & Hemitted).
  split; [exact Hfalse|exact Hemitted].
Defined.

(** The default sort on a sample: ascending rank, the tie kept in input
    order. *)
Example sortItems_ranked :
  sortItems Ranked.tasks [Ranked.high; Ranked.tie; Ranked.keyless; Ranked.low]
  = [Ranked.low; Ranked.keyless; Ranked.high; Ranked.tie].
Proof. reflexivity. Qed.
